(** * dexom-python, [gpr_rules.py]: gene weights to reaction weights

    A shallow embedding of [src/dexom_python/gpr_rules.py] and the
    properties of its GPR evaluator, of the gene-weight table built by
    the command-line entry point and of the expression discretizer.

    Conventions of the embedding
    - Python [str] values are [string]s (sequences of 8-bit characters;
      identifiers and rules are ASCII).
    - Python [float]s, numpy scalars and symengine's [Integer] and
      [RealDouble] are exact rationals ([Q]); [1e-15] is the rational
      [1 / 10^15].  Rounding is therefore not part of the model, and the
      concrete inputs used below are chosen so that binary64 arithmetic
      takes the same branches.
    - [dict]s are [gmap]s, [set]s are duplicate-free lists (the code
      never depends on their order).
    - [print] appends a line to a console log, exceptions are values of
      [exn]; both are threaded by the small monad [io]. *)

From Stdlib Require Import Ascii QArith Qround Qminmax Sorted.
From stdpp Require Import base option list strings gmap.

Local Open Scope Z_scope.
Set Warnings "-register-all,-clear-no-such-hyp".

(** ** Python's string methods used by the script *)

Module PyStr.

(** [s.startswith(p)] *)
Fixpoint startswith (p s : string) : bool :=
  match p, s with
  | EmptyString, _ => true
  | String a p', String b s' => if Ascii.eqb a b then startswith p' s' else false
  | String _ _, EmptyString => false
  end.

(** [s.replace(old, new)] for a non-empty [old]: occurrences are
    found from the left and do not overlap.  [skip] counts the
    characters of the occurrence just replaced that are still to be
    dropped. *)
Fixpoint replace_go (old new : string) (skip : nat) (s : string) : string :=
  match s with
  | EmptyString => EmptyString
  | String c s' =>
      match skip with
      | S k => replace_go old new k s'
      | O =>
          if startswith old s
          then new +:+ replace_go old new (Nat.pred (String.length old)) s'
          else String c (replace_go old new 0 s')
      end
  end.

(** With an empty [old] Python inserts [new] before every character
    and at the end. *)
Fixpoint interleave (new s : string) : string :=
  match s with
  | EmptyString => new
  | String c s' => new +:+ String c (interleave new s')
  end.

Definition replace (old new s : string) : string :=
  match old with
  | EmptyString => interleave new s
  | String _ _ => replace_go old new 0 s
  end.

(** Characters [str.split()] treats as blanks (the ASCII ones). *)
Definition isspace (c : ascii) : bool :=
  let n := nat_of_ascii c in
  ((9 <=? n)%nat && (n <=? 13)%nat) || ((28 <=? n)%nat && (n <=? 32)%nat).

(** [s.split()]: the maximal runs of non-blank characters. *)
Fixpoint split (s : string) : list string :=
  match s with
  | EmptyString => []
  | String c s' =>
      if isspace c then split s'
      else
        match s' with
        | EmptyString => [String c EmptyString]
        | String c' _ =>
            if isspace c' then String c EmptyString :: split s'
            else
              match split s' with
              | w :: ws => String c w :: ws
              | [] => [String c EmptyString]
              end
        end
  end.

(** [sep.join(l)] *)
Fixpoint join (sep : string) (l : list string) : string :=
  match l with
  | [] => EmptyString
  | [w] => w
  | w :: l' => w +:+ sep +:+ join sep l'
  end.

(** [c in s] for a one-character [c] *)
Fixpoint contains_char (c : ascii) (s : string) : bool :=
  match s with
  | EmptyString => false
  | String b s' => Ascii.eqb c b || contains_char c s'
  end.

Definition is_digit (c : ascii) : bool :=
  let n := nat_of_ascii c in (48 <=? n)%nat && (n <=? 57)%nat.

Fixpoint all_chars (f : ascii → bool) (s : string) : bool :=
  match s with
  | EmptyString => true
  | String c s' => f c && all_chars f s'
  end.

(** [s.isdigit()]: non-empty and made of digits only. *)
Definition isdigit (s : string) : bool :=
  match s with
  | EmptyString => false
  | String _ _ => all_chars is_digit s
  end.

(** [s[:-n]] *)
Definition drop_last (n : nat) (s : string) : string :=
  String.substring 0 (String.length s - n) s.

(** [re.sub(a1|a2|..., repl, s)] for literal alternatives: at each
    position the first alternative that matches is taken. *)
Fixpoint first_match (alts : list string) (s : string) : option string :=
  match alts with
  | [] => None
  | a :: alts' => if startswith a s then Some a else first_match alts' s
  end.

Fixpoint re_sub_go (alts : list string) (repl : string) (skip : nat)
    (s : string) : string :=
  match s with
  | EmptyString => EmptyString
  | String c s' =>
      match skip with
      | S k => re_sub_go alts repl k s'
      | O =>
          match first_match alts s with
          | Some a => repl +:+ re_sub_go alts repl (Nat.pred (String.length a)) s'
          | None => String c (re_sub_go alts repl 0 s')
          end
      end
  end.

Definition re_sub (alts : list string) (repl s : string) : string :=
  re_sub_go alts repl 0 s.

End PyStr.

(** ** symengine expressions *)

Module Sym.

(** The classes of expression the script meets.  [Symbol] and
    [Number] are the atoms ([is_Atom]); the others carry their
    [args]. *)
Inductive expr :=
| Symbol (name : string)
| Number (q : Q)
| Add (args : list expr)
| Mul (args : list expr)
| Pow (base exponent : expr)
| Max (args : list expr)
| Min (args : list expr).

Definition is_Atom (e : expr) : bool :=
  match e with Symbol _ | Number _ => true | _ => false end.

Fixpoint remove_first {A} (p : A → bool) (l : list A) : option (list A) :=
  match l with
  | [] => None
  | x :: l' => if p x then Some l' else cons x <$> remove_first p l'
  end.

(** Structural equality of expressions.  symengine keeps the
    arguments of [Add], [Mul], [Max] and [Min] in hash tables, so two
    such nodes are equal when their arguments agree in any order. *)
Fixpoint expr_eqb (a b : expr) {struct a} : bool :=
  let args_eqb :=
    fix go (xs ys : list expr) {struct xs} : bool :=
      match xs with
      | [] => match ys with [] => true | _ :: _ => false end
      | x :: xs' =>
          match remove_first (expr_eqb x) ys with
          | Some ys' => go xs' ys'
          | None => false
          end
      end in
  match a, b with
  | Symbol s, Symbol t => String.eqb s t
  | Number p, Number q => Qeq_bool p q
  | Add xs, Add ys => args_eqb xs ys
  | Mul xs, Mul ys => args_eqb xs ys
  | Max xs, Max ys => args_eqb xs ys
  | Min xs, Min ys => args_eqb xs ys
  | Pow b1 e1, Pow b2 e2 => expr_eqb b1 b2 && expr_eqb e1 e2
  | _, _ => false
  end.

(** *** Sums: a constant and a table from terms to coefficients *)

Definition of_factors (l : list expr) : expr :=
  match l with
  | [x] => x
  | _ => Mul l
  end.

(** [Add::as_coef_term]: a product splits into its numeric
    coefficient (kept first among the arguments) and the rest. *)
Definition as_coef_term (e : expr) : Q * expr :=
  match e with
  | Mul (Number c :: rest) => (c, of_factors rest)
  | _ => (1%Q, e)
  end.

(** Add [c] to the entry of key [t] (keys compared with [expr_eqb]);
    an entry that becomes zero is dropped. *)
Fixpoint dict_add_term (d : list (expr * Q)) (t : expr) (c : Q) : list (expr * Q) :=
  match d with
  | [] => [(t, c)]
  | (t', c') :: d' =>
      if expr_eqb t t'
      then if Qeq_bool (c' + c) 0 then d' else (t', (c' + c)%Q) :: d'
      else (t', c') :: dict_add_term d' t c
  end.

Definition add_operand (acc : Q * list (expr * Q)) (e : expr) : Q * list (expr * Q) :=
  match e with
  | Number q => ((acc.1 + q)%Q, acc.2)
  | _ => let '(c, t) := as_coef_term e in (acc.1, dict_add_term acc.2 t c)
  end.

Definition add_operands (acc : Q * list (expr * Q)) (e : expr) : Q * list (expr * Q) :=
  match e with
  | Add args => foldl add_operand acc args
  | _ => add_operand acc e
  end.

(** A term of a sum written back with its coefficient. *)
Definition with_coef (tc : expr * Q) : expr :=
  if Qeq_bool tc.2 1 then tc.1
  else match tc.1 with
       | Mul args => Mul (Number tc.2 :: args)
       | t => Mul [Number tc.2; t]
       end.

(** [Add::from_dict] *)
Definition add_from_dict (coef : Q) (d : list (expr * Q)) : expr :=
  match d with
  | [] => Number coef
  | [tc] => if Qeq_bool coef 0 then with_coef tc
            else Add [Number coef; with_coef tc]
  | _ => Add ((if Qeq_bool coef 0 then [] else [Number coef]) ++ map with_coef d)
  end.

(** [add(a, b)], what the parser calls for [a + b]. *)
Definition add (a b : expr) : expr :=
  let '(coef, d) := add_operands (add_operands (0%Q, []) a) b in
  add_from_dict coef d.

(** *** Products: a coefficient and a table from bases to exponents *)

Definition mul_operand (acc : Q * list (expr * Q)) (e : expr) : Q * list (expr * Q) :=
  match e with
  | Number q => ((acc.1 * q)%Q, acc.2)
  | Pow b (Number n) => (acc.1, dict_add_term acc.2 b n)
  | _ => (acc.1, dict_add_term acc.2 e 1%Q)
  end.

Definition mul_operands (acc : Q * list (expr * Q)) (e : expr) : Q * list (expr * Q) :=
  match e with
  | Mul args => foldl mul_operand acc args
  | _ => mul_operand acc e
  end.

Definition with_exp (be : expr * Q) : expr :=
  if Qeq_bool be.2 1 then be.1 else Pow be.1 (Number be.2).

(** [Mul::from_dict] *)
Definition mul_from_dict (coef : Q) (d : list (expr * Q)) : expr :=
  if Qeq_bool coef 0 then Number 0
  else match d with
       | [] => Number coef
       | [be] => if Qeq_bool coef 1 then with_exp be
                 else Mul [Number coef; with_exp be]
       | _ => Mul ((if Qeq_bool coef 1 then [] else [Number coef]) ++ map with_exp d)
       end.

(** [mul(a, b)], what the parser calls for [a * b]. *)
Definition mul (a b : expr) : expr :=
  let '(coef, d) := mul_operands (mul_operands (1%Q, []) a) b in
  mul_from_dict coef d.

(** [pow(b, e)] on numbers with an integer exponent; symbolic otherwise. *)
Definition pow (b e : expr) : expr :=
  match b, e with
  | Number x, Number n =>
      if Qeq_bool (inject_Z (Qfloor n)) n then Number (Qpower x (Qfloor n))
      else Pow b e
  | _, _ => Pow b e
  end.

(** *** [Max] and [Min] *)

(** The arguments of an extremum: the numbers folded into one with
    [pick], nested extrema of the same kind (given by [nested])
    opened up, and the other arguments kept once each. *)
Fixpoint insert_arg (e : expr) (l : list expr) : list expr :=
  match l with
  | [] => [e]
  | x :: l' => if expr_eqb e x then l else x :: insert_arg e l'
  end.

Definition extremum_arg (pick : Q → Q → Q) (acc : option Q * list expr) (e : expr)
    : option Q * list expr :=
  match e with
  | Number q => (Some (from_option (fun m => pick m q) q acc.1), acc.2)
  | _ => (acc.1, insert_arg e acc.2)
  end.

Definition extremum_args (pick : Q → Q → Q) (nested : expr → option (list expr))
    (acc : option Q * list expr) (e : expr) : option Q * list expr :=
  match nested e with
  | Some inner => foldl (extremum_arg pick) acc inner
  | None => extremum_arg pick acc e
  end.

Definition extremum (pick : Q → Q → Q) (nested : expr → option (list expr))
    (mk : list expr → expr) (args : list expr) : option expr :=
  let '(num, others) := foldl (extremum_args pick nested) (None, []) args in
  match others ++ from_option (fun q => [Number q]) [] num with
  | [] => None
  | [x] => Some x
  | final => Some (mk final)
  end.

Definition args_of_Max (e : expr) : option (list expr) :=
  match e with Max l => Some l | _ => None end.
Definition args_of_Min (e : expr) : option (list expr) :=
  match e with Min l => Some l | _ => None end.

(** The constructors [Max] and [Min] applied to an argument list; [None] stands for the exception
    symengine raises on an empty argument list. *)
Definition mk_Max : list expr → option expr := extremum Qmax args_of_Max Max.
Definition mk_Min : list expr → option expr := extremum Qmin args_of_Min Min.

End Sym.

(** ** [sympify]: reading the operator-substituted rule *)

Module Parser.
Import Sym.

Inductive token :=
| TIdent (name : string)
| TPlus
| TStar
| TLParen
| TRParen.

Definition is_letter (c : ascii) : bool :=
  let n := nat_of_ascii c in
  ((65 <=? n)%nat && (n <=? 90)%nat) || ((97 <=? n)%nat && (n <=? 122)%nat).

Definition is_ident_start (c : ascii) : bool :=
  is_letter c || Ascii.eqb c "_".

Definition is_ident_char (c : ascii) : bool :=
  is_ident_start c || PyStr.is_digit c.

(** Blanks the tokenizer skips: space, tab, vertical tab, newline,
    carriage return. *)
Definition is_blank (c : ascii) : bool :=
  let n := nat_of_ascii c in
  (n =? 32)%nat || (n =? 9)%nat || (n =? 11)%nat || (n =? 10)%nat || (n =? 13)%nat.

Definition punct (c : ascii) : option token :=
  if Ascii.eqb c "+" then Some TPlus
  else if Ascii.eqb c "*" then Some TStar
  else if Ascii.eqb c "(" then Some TLParen
  else if Ascii.eqb c ")" then Some TRParen
  else None.

(** The tokens of the language that rules turn into: identifiers,
    [+], [*] and parentheses.  [inside] tells that the previous
    character belongs to the identifier being read.  Everything else
    symengine's grammar knows (numerals, signs, powers, function
    calls, comparisons) is outside this model and yields [None]. *)
Fixpoint lex (inside : bool) (s : string) : option (list token) :=
  match s with
  | EmptyString => Some []
  | String c s' =>
      if is_ident_char c then
        if inside || is_ident_start c then
          match s' with
          | EmptyString => Some [TIdent (String c EmptyString)]
          | String c' _ =>
              if is_ident_char c' then
                match lex true s' with
                | Some (TIdent w :: ts) => Some (TIdent (String c w) :: ts)
                | _ => None
                end
              else cons (TIdent (String c EmptyString)) <$> lex false s'
          end
        else None
      else if is_blank c then lex false s'
      else match punct c with
           | Some t => cons t <$> lex false s'
           | None => None
           end
  end.

(** Names the parser reads as constants, not as symbols. *)
Definition constants : list string :=
  ["e"; "E"; "EulerGamma"; "Catalan"; "GoldenRatio"; "pi"; "I"; "oo";
   "inf"; "zoo"; "nan"; "True"; "False"].

Definition is_constant (w : string) : bool :=
  existsb (String.eqb w) constants.

(** Operator-precedence parsing: [*] binds tighter than [+], both
    associate to the left, and every node is built with the
    canonicalising [Sym.add] and [Sym.mul]. *)
Fixpoint parse_sum (fuel : nat) (ts : list token) : option (expr * list token) :=
  match fuel with
  | O => None
  | S n =>
      '(t, r) ← parse_product n ts;
      sum_rest n t r
  end
with sum_rest (fuel : nat) (acc : expr) (ts : list token) : option (expr * list token) :=
  match fuel with
  | O => None
  | S n =>
      match ts with
      | TPlus :: r =>
          '(t, r') ← parse_product n r;
          sum_rest n (add acc t) r'
      | _ => Some (acc, ts)
      end
  end
with parse_product (fuel : nat) (ts : list token) : option (expr * list token) :=
  match fuel with
  | O => None
  | S n =>
      '(f, r) ← parse_atom n ts;
      product_rest n f r
  end
with product_rest (fuel : nat) (acc : expr) (ts : list token) : option (expr * list token) :=
  match fuel with
  | O => None
  | S n =>
      match ts with
      | TStar :: r =>
          '(f, r') ← parse_atom n r;
          product_rest n (mul acc f) r'
      | _ => Some (acc, ts)
      end
  end
with parse_atom (fuel : nat) (ts : list token) : option (expr * list token) :=
  match fuel with
  | O => None
  | S n =>
      match ts with
      | TIdent w :: r => if is_constant w then None else Some (Symbol w, r)
      | TLParen :: r =>
          '(e, r') ← parse_sum n r;
          match r' with
          | TRParen :: r'' => Some (e, r'')
          | _ => None
          end
      | _ => None
      end
  end.

(** The fuel given to the descent: four calls for every token. *)
Definition fuel_for (ts : list token) : nat := 4 * length ts + 4.

Definition parse (ts : list token) : option expr :=
  match parse_sum (fuel_for ts) ts with
  | Some (e, []) => Some e
  | _ => None
  end.

(** [sympify(text)] *)
Definition sympify (text : string) : option expr :=
  lex false text ≫= parse.

End Parser.

(** ** Tables (pandas) *)

(** A [DataFrame] read with [index_col=0]: every row has its index
    label and one value in each of the remaining columns. *)
Record dataframe := {
  columns : list string;
  rows : list (string * list Q)
}.

(** A [Series] with an index of labels. *)
Abbreviation series := (list (string * Q)) (only parsing).

(** ** Console output, files written and exceptions *)

Inductive exn :=
| TypeError (msg : string)
| SympifyError (text : string)
| ValueError (msg : string)
| IndexError (msg : string)
| ZeroDivisionError.

(** What a run leaves behind: the lines printed and the tables handed
    to [save_reaction_weights] (imported from another module of the
    package) and to [DataFrame.to_csv]. *)
Inductive event :=
| Print (line : string)
| SaveReactionWeights (table : gmap string Sym.expr) (path : string)
| ToCsv (df : dataframe) (path : string).

(** A computation: the events so far and an exception or a value. *)
Definition io (A : Type) : Type := list event * (exn + A).

Definition io_ret {A} (a : A) : io A := ([], inr a).
Definition io_raise {A} (e : exn) : io A := ([], inl e).
Definition io_emit (ev : event) : io unit := ([ev], inr tt).
Definition io_bind {A B} (m : io A) (k : A → io B) : io B :=
  match m with
  | (log, inl e) => (log, inl e)
  | (log, inr a) => let '(log', r) := k a in (log ++ log', r)
  end.
Definition io_of_option {A} (e : exn) (o : option A) : io A :=
  match o with Some a => io_ret a | None => io_raise e end.

Declare Scope io_scope.
Delimit Scope io_scope with io.
Notation "'let*' x ':=' m 'in' k" := (io_bind m (fun x => k))
  (at level 10, x pattern, m at level 100, k at level 200) : io_scope.

(** ** The GPR evaluator *)

Module Gpr.
Import Sym.

(** A reaction of the cobrapy model: its identifier, its rule and
    the identifiers of the genes cobrapy associates with it. *)
Record reaction := {
  rid : string;
  gene_reaction_rule : string;
  genes : list string
}.

(** [1e-15] *)
Definition eps : Q := 1 # 1000000000000000.

Fixpoint replace_MulMax_AddMin (expression : expr) : option expr :=
  match expression with
  | Symbol _ | Number _ => Some expression
  | Mul args => mapM replace_MulMax_AddMin args ≫= mk_Max
  | Add args => mapM replace_MulMax_AddMin args ≫= mk_Min
  | Pow b e =>
      b' ← replace_MulMax_AddMin b;
      e' ← replace_MulMax_AddMin e;
      Some (pow b' e')
  | Max args => mapM replace_MulMax_AddMin args ≫= mk_Max
  | Min args => mapM replace_MulMax_AddMin args ≫= mk_Min
  end.

(** [expression.subs(d)] for a table from symbol names to numbers:
    symbols with an entry become numbers and every node is built
    again by its constructor, which evaluates it when it can. *)
Fixpoint subs (d : gmap string Q) (e : expr) : option expr :=
  match e with
  | Symbol s => Some (from_option Number e (d !! s))
  | Number _ => Some e
  | Add args => foldl add (Number 0) <$> mapM (subs d) args
  | Mul args => foldl mul (Number 1) <$> mapM (subs d) args
  | Pow b x =>
      b' ← subs d b;
      x' ← subs d x;
      Some (pow b' x')
  | Max args => mapM (subs d) args ≫= mk_Max
  | Min args => mapM (subs d) args ≫= mk_Min
  end.

(** [subs] is given a [dict] whose keys are strings; symengine reads
    each key with [sympify].  Keys that are not read as a symbol are
    outside the model. *)
Definition key_symbol (g : string) : option string :=
  match Parser.sympify g with
  | Some (Symbol s) => Some s
  | _ => None
  end.

Fixpoint subs_dict (new_weights : list (string * Q)) : option (gmap string Q) :=
  match new_weights with
  | [] => Some ∅
  | (g, v) :: l =>
      s ← key_symbol g;
      d ← subs_dict l;
      Some (<[s := v]> d)
  end.

(** The tokens of a rule with the parentheses set apart. *)
Definition spaced_split (rule : string) : list string :=
  PyStr.split (PyStr.replace ")" " )" (PyStr.replace "(" "( " rule)).

(** [re.sub('and|or|\(|\)', '', rule).split()] *)
Definition rule_genes (rule : string) : list string :=
  PyStr.split (PyStr.re_sub ["and"; "or"; "("; ")"] "" rule).

Definition prepare_expr_split_gen_list (rxn : reaction) (modelname : string)
    : io (option (list string) * option (list string)) :=
  if String.eqb modelname "recon2" then
    let expr_split := spaced_split (gene_reaction_rule rxn) in
    let expr_split :=
      map (fun s => if PyStr.contains_char ":" s then PyStr.replace ":" "_" s else s)
          expr_split in
    let rxngenes := rule_genes (gene_reaction_rule rxn) in
    let gen_list :=
      remove_dups (map (PyStr.replace ":" "_")
                       (filter (fun s => PyStr.contains_char ":" s = true) rxngenes)) in
    io_ret (Some expr_split, Some gen_list)
  else if String.eqb modelname "recon1" then
    let expr_split := spaced_split (gene_reaction_rule rxn) in
    let expr_split :=
      map (fun s => if PyStr.contains_char "_" s
                    then "g_" +:+ PyStr.drop_last 4 s else s) expr_split in
    let rxngenes := rule_genes (gene_reaction_rule rxn) in
    let gen_list :=
      remove_dups (map (fun s => "g_" +:+ PyStr.drop_last 4 s)
                       (filter (fun s => PyStr.contains_char "_" s = true) rxngenes)) in
    io_ret (Some expr_split, Some gen_list)
  else if String.eqb modelname "iMM1865" then
    let expr_split := PyStr.split (gene_reaction_rule rxn) in
    let expr_split :=
      map (fun s => if PyStr.isdigit s then "g_" +:+ s else s) expr_split in
    let rxngenes := rule_genes (gene_reaction_rule rxn) in
    let gen_list :=
      remove_dups (map (fun s => "g_" +:+ s)
                       (filter (fun s => PyStr.isdigit s = true) rxngenes)) in
    io_ret (Some expr_split, Some gen_list)
  else if String.eqb modelname "human1" then
    let expr_split := spaced_split (gene_reaction_rule rxn) in
    let gen_list := remove_dups (genes rxn) in
    io_ret (Some expr_split, Some gen_list)
  else if String.eqb modelname "zebrafish1" then
    let expr_split := spaced_split (gene_reaction_rule rxn) in
    let expr_split := map (PyStr.re_sub [":"; "."] "_") expr_split in
    let gen_list := remove_dups (map (PyStr.re_sub [":"; "."] "_") (genes rxn)) in
    io_ret (Some expr_split, Some gen_list)
  else
    (let* _ := io_emit (Print "Modelname not found") in
     io_ret (None, None))%io.

(** Line 119: the tokens joined by blanks, then [or] replaced by [*]
    and [and] by [+], wherever these letters stand. *)
Definition expression_of (expr_split : list string) : string :=
  PyStr.replace "and" "+" (PyStr.replace "or" "*" (PyStr.join " " expr_split)).

(** [gene_weights.get(g, 0)] *)
Definition get_weight (gene_weights : gmap string Q) (g : string) : Q :=
  default 0%Q (gene_weights !! g).

(** The value a gene enters the expression with: a negative weight
    [v] becomes [-v - 1e-15]. *)
Definition flipped (v : Q) : Q :=
  if Qlt_le_dec v 0 then (- v - eps)%Q else v.

(** [new_weights] after the loop over its items, in the order of
    [gen_list]. *)
Definition new_weights_of (gene_weights : gmap string Q) (gen_list : list string)
    : list (string * Q) :=
  map (fun g => (g, flipped (get_weight gene_weights g))) gen_list.

(** [negweights] after the same loop. *)
Definition negweights_of (gene_weights : gmap string Q) (gen_list : list string)
    : list Q :=
  omap (fun g => let v := get_weight gene_weights g in
                 if Qlt_le_dec v 0 then Some (- v)%Q else None) gen_list.

(** [weight + 1e-15 in negweights]: only a number can equal one of
    the recorded floats. *)
Definition in_negweights (weight : expr) (negweights : list Q) : bool :=
  match weight with
  | Number r => existsb (Qeq_bool (r + eps)) negweights
  | _ => false
  end.

(** [-weight - 1e-15], needed for numbers only. *)
Definition unflipped (weight : expr) : expr :=
  match weight with
  | Number r => Number (- r - eps)
  | _ => weight
  end.

(** The body of the loop of [apply_gpr] for one reaction. *)
Definition reaction_weight (gene_weights : gmap string Q) (modelname : string)
    (rxn : reaction) : io expr :=
  if (0 <? length (genes rxn))%nat then
    (let* (expr_split, gen_list) := prepare_expr_split_gen_list rxn modelname in
     let* gen_list :=
       io_of_option (TypeError "'NoneType' object is not iterable") gen_list in
     let new_weights := new_weights_of gene_weights gen_list in
     let negweights := negweights_of gene_weights gen_list in
     let* expr_split :=
       io_of_option (TypeError "can only join an iterable") expr_split in
     let expression :=
       PyStr.replace "and" "+" (PyStr.replace "or" "*" (PyStr.join " " expr_split)) in
     let* tree := io_of_option (SympifyError expression) (Parser.sympify expression) in
     let* tree := io_of_option (ValueError "empty argument list")
                               (replace_MulMax_AddMin tree) in
     let* d := io_of_option (SympifyError "key") (subs_dict new_weights) in
     let* weight := io_of_option (ValueError "empty argument list") (subs d tree) in
     io_ret (if in_negweights weight negweights then unflipped weight else weight))%io
  else io_ret (Number 0).

Fixpoint apply_gpr_loop (gene_weights : gmap string Q) (modelname : string)
    (reactions : list reaction) (reaction_weights : gmap string expr)
    : io (gmap string expr) :=
  match reactions with
  | [] => io_ret reaction_weights
  | rxn :: rest =>
      (let* weight := reaction_weight gene_weights modelname rxn in
       apply_gpr_loop gene_weights modelname rest (<[rid rxn := weight]> reaction_weights))%io
  end.

Definition apply_gpr (model : list reaction) (gene_weights : gmap string Q)
    (modelname : string) (save : bool) (filename : string) : io (gmap string expr) :=
  (let* reaction_weights := apply_gpr_loop gene_weights modelname model ∅ in
   let* _ := (if save
              then io_emit (SaveReactionWeights reaction_weights (filename +:+ ".csv"))
              else io_ret tt) in
   io_ret reaction_weights)%io.

End Gpr.

(** ** The command-line entry point *)

Module Main.
Import Sym Gpr.

Definition model_list : list string :=
  ["human1"; "recon1"; "recon2"; "iMM1865"; "zebrafish1"].

(** [gene_weights[x]]: the values of the rows labelled [x]; pandas
    gives a scalar when there is one row and a [Series] otherwise. *)
Definition values_at (x : string) (gene_weights : series) : list Q :=
  map snd (filter (fun row => row.1 = x) gene_weights).

Definition Qmem (v : Q) (l : list Q) : bool := existsb (Qeq_bool v) l.

(** [.value_counts()]: one entry for each distinct value. *)
Fixpoint value_counts (vs : list Q) : list Q :=
  match vs with
  | [] => []
  | v :: vs' => if Qmem v vs' then value_counts vs' else v :: value_counts vs'
  end.

(** [gene_weights.pop(x)] removes every row labelled [x]. *)
Definition pop (x : string) (gene_weights : series) : series :=
  filter (fun row => row.1 ≠ x) gene_weights.

(** One turn of the loop over [set(gene_weights.index)]. *)
Definition drop_if_conflicting (gene_weights : series) (x : string) : series :=
  match values_at x gene_weights with
  | [_] => gene_weights
  | vs => if (1 <? length (value_counts vs))%nat then pop x gene_weights
          else gene_weights
  end.

(** [.to_dict()]: of several rows with one label the last one stays. *)
Definition to_dict (gene_weights : series) : gmap string Q :=
  foldl (fun d row => <[row.1 := row.2]> d) ∅ gene_weights.

(** Lines 152 to 157: the table [apply_gpr] is called with, from the
    [Series] of scores indexed by gene identifier. *)
Definition gene_weight_table (gene_weights : series) : gmap string Q :=
  to_dict (foldl drop_if_conflicting gene_weights
                 (remove_dups (map fst gene_weights))).

(** The script after its two inputs are read: [model] is what
    [read_model] returned and [gene_weights] the [Series] built from
    the scores file.  The value is the table of reaction weights, if
    one is computed. *)
Definition main (model : list reaction) (gene_weights : series)
    (modelname output : string) : io (option (gmap string expr)) :=
  let gene_weights := gene_weight_table gene_weights in
  if existsb (String.eqb modelname) model_list then
    (let* reaction_weights := apply_gpr model gene_weights modelname true output in
     io_ret (Some reaction_weights))%io
  else
    (let* _ := io_emit (Print "Unsupported model. The currently supported models are: human1, recon1, recon2, iMM1865, zebrafish1") in
     io_ret None)%io.

End Main.

(** ** The discretizer *)

Module Discretize.

(** [column_idx]: a number of leading columns or a list of positions. *)
Inductive column_idx_t :=
| IdxInt (n : Z)
| IdxList (l : list nat).

Definition positions (column_idx : column_idx_t) : list nat :=
  match column_idx with
  | IdxInt n => seq 0 (Z.to_nat n)
  | IdxList l => l
  end.

Definition cell (j : nat) (row : string * list Q) : Q := nth j row.2 0%Q.

Definition set_cell (j : nat) (v : Q) (row : string * list Q) : string * list Q :=
  (row.1, <[j := v]> row.2).

Definition group (j : nat) (x : string) (rws : list (string * list Q)) : list Q :=
  map (cell j) (filter (fun row => row.1 = x) rws).

Definition Qmaximum (l : list Q) : Q :=
  match l with
  | [] => 0%Q
  | v :: l' => foldl Qmax v l'
  end.

Definition Qmean (l : list Q) : Q :=
  (foldl Qplus 0 l / inject_Z (Z.of_nat (length l)))%Q.

(** [df[col][x] = f(df[col][x])] for every label [x] of the index. *)
Definition resolve (f : list Q → Q) (j : nat) (rws : list (string * list Q))
    : list (string * list Q) :=
  foldl (fun acc x =>
           let v := f (group j x acc) in
           map (fun row => if decide (row.1 = x) then set_cell j v row else row) acc)
        rws (remove_dups (map fst rws)).

(** [df.sort_values(col)]: ascending, rows with equal values keep
    their order. *)
Fixpoint insert_row (j : nat) (r : string * list Q) (l : list (string * list Q))
    : list (string * list Q) :=
  match l with
  | [] => [r]
  | r' :: l' => if Qle_bool (cell j r') (cell j r) then r' :: insert_row j r l'
                else r :: l
  end.

Definition sort_values (j : nat) (rws : list (string * list Q)) : list (string * list Q) :=
  foldl (fun acc r => insert_row j r acc) [] rws.

(** A bound of a Python slice on a sequence of length [len]. *)
Definition slice_bound (len b : Z) : Z :=
  Z.max 0 (Z.min len (if b <? 0 then b + len else b)).

(** [df[col].iloc[lo:hi] = v]; [None] is an open end.  The
    assignment writes through to [df], as it does in the pandas the
    script was written for. *)
Definition assign_slice (j : nat) (lo hi : option Z) (v : Q)
    (rws : list (string * list Q)) : list (string * list Q) :=
  let len := Z.of_nat (length rws) in
  let lo' := slice_bound len (default 0 lo) in
  let hi' := slice_bound len (default len hi) in
  imap (fun i row => if (lo' <=? Z.of_nat i) && (Z.of_nat i <? hi')
                     then set_cell j v row else row) rws.

(** [int(a // b)] on floats *)
Definition floordiv (a b : Q) : Z := Qfloor (a / b).

Definition discretize_column (cutoff : Q) (method : string) (j : nat)
    (rws : list (string * list Q)) : list (string * list Q) :=
  let rws :=
    if String.eqb method "max" then resolve Qmaximum j rws
    else if String.eqb method "mean" then resolve Qmean j rws
    else rws in
  let rws := sort_values j rws in
  let len := inject_Z (Z.of_nat (length rws)) in
  let low := floordiv len cutoff + 1 in
  let high := floordiv (len * (cutoff - 1)) cutoff in
  let rws := assign_slice j None (Some low) (-1)%Q rws in
  let rws := assign_slice j (Some low) (Some high) 0%Q rws in
  assign_slice j (Some high) None 1%Q rws.

(** [expression2qualitative], from the table [pd.read_csv] returned.
    Columns are taken by position; their names are distinct. *)
Definition expression2qualitative (df : dataframe) (column_idx : column_idx_t)
    (percentage : Q) (method : string) (save : bool) (outpath : string)
    : io dataframe :=
  if Qeq_bool (percentage / 100) 0 then io_raise ZeroDivisionError
  else
    let cutoff := (1 / (percentage / 100))%Q in
    if forallb (fun j => (j <? length (columns df))%nat) (positions column_idx) then
      let df' := {| columns := columns df;
                    rows := foldl (fun rws j => discretize_column cutoff method j rws)
                                  (rows df) (positions column_idx) |} in
      (let* _ := (if save then io_emit (ToCsv df' (outpath +:+ ".csv")) else io_ret tt) in
       io_ret df')%io
    else io_raise (IndexError "index out of bounds").

End Discretize.

(** ** Sample inputs used by the examples below *)

Module Samples.
Import Sym Gpr.

Definition table (l : list (string * Q)) : gmap string Q := list_to_map l.

Definition no_gene_reaction : reaction :=
  {| rid := "EX_glc"; gene_reaction_rule := ""; genes := [] |}.

(** The rule and the weights of the worked example. *)
Definition example_reaction : reaction :=
  {| rid := "R1"; gene_reaction_rule := "A and (B or C)"; genes := ["A"; "B"; "C"] |}.

Definition example_weights : gmap string Q :=
  table [("A", 2%Q); ("B", 5%Q); ("C", (-1)%Q)].

(** The same rule with two negative weights. *)
Definition negative_weights : gmap string Q :=
  table [("A", (-2)%Q); ("B", 5%Q); ("C", (-1)%Q)].

(** Two-gene rules. *)
Definition and_reaction : reaction :=
  {| rid := "R_and"; gene_reaction_rule := "A and B"; genes := ["A"; "B"] |}.

Definition or_reaction : reaction :=
  {| rid := "R_or"; gene_reaction_rule := "A or B"; genes := ["A"; "B"] |}.

Definition positive_pair : gmap string Q := table [("A", 2%Q); ("B", 5%Q)].


(** A reaction one of whose genes holds [or] in its identifier. *)
Definition corrupted_reaction : reaction :=
  {| rid := "R_c"; gene_reaction_rule := "AorB and A and B";
     genes := ["AorB"; "A"; "B"] |}.

(** A column holding the values 1 to 10. *)
Definition one_to_ten : dataframe :=
  {| columns := ["expression"];
     rows := [("g1", [1%Q]); ("g2", [2%Q]); ("g3", [3%Q]); ("g4", [4%Q]);
              ("g5", [5%Q]); ("g6", [6%Q]); ("g7", [7%Q]); ("g8", [8%Q]);
              ("g9", [9%Q]); ("g10", [10%Q])] |}.


End Samples.

(** ** Notions used to state the properties *)

Module Notions.
Import Sym Gpr.



(** A name made of letters, digits and underscores that does not start
    with a digit. *)
Definition is_identifier (g : string) : bool :=
  match g with
  | EmptyString => false
  | String c g' => Parser.is_ident_start c && PyStr.all_chars Parser.is_ident_char g'
  end.

(** [old] occurs in [s]. *)
Fixpoint occurs (old s : string) : bool :=
  PyStr.startswith old s ||
  match s with
  | EmptyString => false
  | String _ s' => occurs old s'
  end.




(** The text after the first gene of a chain: a blank, the operator, a
    blank and the next gene, for every further gene. *)
Fixpoint chain_tail (sym : string) (gs : list string) : string :=
  match gs with
  | [] => ""
  | g :: gs' => String " " (sym +:+ String " " (g +:+ chain_tail sym gs'))
  end.

(** What follows an identifier in the text: the end, or a character
    that cannot continue it. *)
Definition ends_identifier (rest : string) : Prop :=
  match rest with
  | EmptyString => True
  | String c _ => Parser.is_ident_char c = false
  end.





(** The names at the leaves of an expression. *)
Fixpoint symbols (e : expr) : list string :=
  match e with
  | Symbol s => [s]
  | Number _ => []
  | Add l | Mul l | Max l | Min l => l ≫= symbols
  | Pow b x => symbols b ++ symbols x
  end.

Definition dict_symbols (d : list (expr * Q)) : list string :=
  d ≫= fun tc => symbols tc.1.

(** The identifiers among some tokens. *)
Definition idents (ts : list Parser.token) : list string :=
  omap (fun t => match t with Parser.TIdent w => Some w | _ => None end) ts.


End Notions.

(** ** What a run leaves behind *)

Module Observations.

(** The tables handed to [save_reaction_weights], with their paths. *)
Definition saved_tables (log : list event) : list (gmap string Sym.expr * string) :=
  omap (fun ev => match ev with
                  | SaveReactionWeights t p => Some (t, p)
                  | _ => None
                  end) log.

(** The lines printed. *)
Definition printed (log : list event) : list string :=
  omap (fun ev => match ev with
                  | Print line => Some line
                  | _ => None
                  end) log.

(** Whether a run ended with a [TypeError]. *)
Definition type_error {A} (r : exn + A) : bool :=
  match r with
  | inl (TypeError _) => true
  | _ => false
  end.

End Observations.

(** ** Ranks of the discretizer *)

Module Ranks.
Import Discretize.



(** The label of the row at position [i] once the three slices are
    assigned in turn. *)
Definition label_at (low high : Z) (i : nat) : Q :=
  if high <=? Z.of_nat i then 1%Q
  else if Z.of_nat i <? low then (-1)%Q
  else 0%Q.

End Ranks.

(** ** Shapes of expressions *)

Module Shapes.
Import Sym.

(** The test of [pow] for an exponent that is a whole number. *)
Definition integral (q : Q) : bool := Qeq_bool (inject_Z (Qfloor q)) q.

(** Trees as the parser builds them: a sum, a product, a [Max] or a
    [Min] has at least two arguments, and the exponent of a power is
    a whole number, the count of equal factors. *)
Fixpoint proper (e : expr) : bool :=
  match e with
  | Symbol _ | Number _ => true
  | Add l | Mul l | Max l | Min l => (2 <=? length l)%nat && forallb proper l
  | Pow b x => proper b && match x with Number n => integral n | _ => false end
  end.

(** The table of a sum: proper terms. *)
Definition proper_keys (d : list (expr * Q)) : Prop :=
  Forall (fun tc => proper tc.1 = true) d.

(** The table of a product: proper bases, whole exponents. *)
Definition whole_entries (d : list (expr * Q)) : Prop :=
  Forall (fun be => proper be.1 = true ∧ integral be.2 = true) d.

(** The accumulator of an extremum holds something. *)
Definition filled (acc : option Q * list expr) : Prop :=
  acc.1 ≠ None ∨ acc.2 ≠ [].

(** Trees without a sum and without a product. *)
Fixpoint extrema_only (e : expr) : bool :=
  match e with
  | Symbol _ | Number _ => true
  | Add _ | Mul _ => false
  | Pow b x => extrema_only b && extrema_only x
  | Max l | Min l => forallb extrema_only l
  end.

(** The least or the greatest of a list of values, taken with
    [pick] from the left. *)
Definition extreme (pick : Q → Q → Q) (vs : list Q) : Q :=
  match vs with
  | [] => 0%Q
  | v :: vs' => foldl pick v vs'
  end.

(** The reading of the tree of a rule under the weights [w]: a sum
    stands for [and] and takes the least of its terms, a product for
    [or] and takes the greatest of its factors; numbers and powers,
    which the parser writes where terms repeat, count as what they
    are. *)
Fixpoint value (w : string → Q) (e : expr) : Q :=
  match e with
  | Symbol s => w s
  | Number q => q
  | Add l | Min l => extreme Qmin (map (value w) l)
  | Mul l | Max l => extreme Qmax (map (value w) l)
  | Pow b x => Qpower (value w b) (Qfloor (value w x))
  end.

(** The comparison of argument lists inside [expr_eqb]. *)
Fixpoint args_eqb (xs ys : list expr) : bool :=
  match xs with
  | [] => match ys with [] => true | _ :: _ => false end
  | x :: xs' =>
      match remove_first (expr_eqb x) ys with
      | Some ys' => args_eqb xs' ys'
      | None => false
      end
  end.

(** What [pick] has to be for the order [le]: the greater of two
    values. *)
Definition extremal (pick : Q → Q → Q) (le : Q → Q → Prop) : Prop :=
  (∀ a a' b b', (a == a')%Q → (b == b')%Q → le a b → le a' b')
  ∧ (∀ a, le a a)
  ∧ (∀ a b c, le a b → le b c → le a c)
  ∧ (∀ a b, le a b → le b a → (a == b)%Q)
  ∧ (∀ a b, (pick a b == a)%Q ∨ (pick a b == b)%Q)
  ∧ (∀ a b m, le (pick a b) m ↔ le a m ∧ le b m).

(** Two lists of values each of which is bounded by the other. *)
Definition cofinal (le : Q → Q → Prop) (X Y : list Q) : Prop :=
  (∀ x, x ∈ X → ∃ y, y ∈ Y ∧ le x y) ∧ (∀ y, y ∈ Y → ∃ x, x ∈ X ∧ le y x).

(** The values an accumulator of an extremum holds. *)
Definition held (w : string → Q) (acc : option Q * list expr) : list Q :=
  map (value w) acc.2 ++ from_option (fun q => [q]) [] acc.1.

End Shapes.

(** * Properties *)

Import Sym Gpr Samples Notions.

(** ** The [io] monad *)

Lemma io_bind_inr {A B} (m : io A) (k : A → io B) log b :
  io_bind m k = (log, inr b) →
  ∃ log1 a log2, m = (log1, inr a) ∧ k a = (log2, inr b) ∧ log = log1 ++ log2.
Proof.
  destruct m as [log1 [e|a]]; simpl; [discriminate|].
  destruct (k a) as [log2 r] eqn:Hk. intros [= <- ->]. eauto 6.
Qed.

Lemma io_bind_ret_l {A B} (a : A) (k : A → io B) : io_bind (io_ret a) k = k a.
Proof. unfold io_bind, io_ret. by destruct (k a). Qed.

(** ** Reactions without genes *)

Lemma reaction_weight_no_genes gene_weights modelname rxn :
  genes rxn = [] → reaction_weight gene_weights modelname rxn = ([], inr (Number 0)).
Proof. intros Hg. unfold reaction_weight. by rewrite Hg. Qed.

Lemma apply_gpr_loop_lookup gene_weights modelname reactions :
  ∀ acc log rw,
    apply_gpr_loop gene_weights modelname reactions acc = (log, inr rw) →
    NoDup (map rid reactions) →
    (∀ rxn, rxn ∈ reactions →
       ∃ l, reaction_weight gene_weights modelname rxn = (l, inr (default (Number 0) (rw !! rid rxn)))
            ∧ is_Some (rw !! rid rxn))
    ∧ (∀ i, i ∉ map rid reactions → rw !! i = acc !! i).
Proof.
  induction reactions as [|r rest IH]; intros acc log rw Hrun Hnd.
  - injection Hrun as <- <-. split; [intros rxn Hin; by apply elem_of_nil in Hin | done].
  - cbn [apply_gpr_loop] in Hrun.
    apply io_bind_inr in Hrun as (l1 & w & l2 & Hw & Hrest & ->).
    apply NoDup_cons in Hnd as [Hfresh Hnd]. fold (map rid rest) in Hfresh, Hnd.
    destruct (IH _ _ _ Hrest Hnd) as [Hin Hout].
    split.
    + intros rxn [->|Hmem]%elem_of_cons.
      * rewrite (Hout _ Hfresh), lookup_insert_eq. eauto.
      * by apply Hin.
    + intros i Hi. cbn [map] in Hi. apply not_elem_of_cons in Hi as [Hne Hi].
      rewrite (Hout _ Hi). by rewrite lookup_insert_ne.
Qed.

(** C5.  A reaction with no associated gene gets the weight [0.0]
    whatever the gene-weight table, the naming convention and its rule:
    the body of the loop returns it without running the pipeline, and
    every table [apply_gpr] returns holds it under the reaction's
    identifier. *)
Theorem zero_genes_weight_zero gene_weights modelname rxn :
  genes rxn = [] →
  reaction_weight gene_weights modelname rxn = ([], inr (Number 0))
  ∧ ∀ model save filename log reaction_weights,
      rxn ∈ model → NoDup (map rid model) →
      apply_gpr model gene_weights modelname save filename = (log, inr reaction_weights) →
      reaction_weights !! rid rxn = Some (Number 0).
Proof.
  intros Hg. split; [by apply reaction_weight_no_genes|].
  intros model save filename log rw Hin Hnd Hrun. unfold apply_gpr in Hrun.
  apply io_bind_inr in Hrun as (l1 & rw' & l2 & Hloop & Hrest & _).
  assert (rw' = rw) as ->.
  { destruct save; cbn in Hrest; by injection Hrest as _ ->. }
  destruct (apply_gpr_loop_lookup _ _ _ _ _ _ Hloop Hnd) as [Hall _].
  destruct (Hall _ Hin) as (l & Hw & [w Hsome]).
  rewrite (reaction_weight_no_genes _ _ _ Hg), Hsome in Hw. cbn in Hw.
  by injection Hw as _ <-.
Qed.

Lemma zero_genes_weight_zero_witness :
  reaction_weight {[ "A" := 7%Q ]} "human1" no_gene_reaction = ([], inr (Number 0))
  ∧ ∀ model save filename log reaction_weights,
      no_gene_reaction ∈ model → NoDup (map rid model) →
      apply_gpr model {[ "A" := 7%Q ]} "human1" save filename = (log, inr reaction_weights) →
      reaction_weights !! rid no_gene_reaction = Some (Number 0).
Proof. apply (zero_genes_weight_zero {[ "A" := 7%Q ]} "human1" no_gene_reaction). reflexivity. Defined.

(** ** Genes without an entry in the table *)

Lemma get_weight_insert_absent gene_weights g g' :
  gene_weights !! g = None →
  get_weight (<[g := 0%Q]> gene_weights) g' = get_weight gene_weights g'.
Proof.
  intros Hnone. unfold get_weight.
  destruct (decide (g = g')) as [<-|Hne].
  - by rewrite lookup_insert_eq, Hnone.
  - by rewrite lookup_insert_ne.
Qed.

Lemma new_weights_of_ext gw gw' gen_list :
  (∀ g, get_weight gw' g = get_weight gw g) →
  new_weights_of gw' gen_list = new_weights_of gw gen_list.
Proof.
  intros Hext. unfold new_weights_of. apply map_ext. intros g. by rewrite Hext.
Qed.

Lemma negweights_of_ext gw gw' gen_list :
  (∀ g, get_weight gw' g = get_weight gw g) →
  negweights_of gw' gen_list = negweights_of gw gen_list.
Proof.
  intros Hext. unfold negweights_of.
  induction gen_list as [|g l IH]; [done|]. cbn. by rewrite Hext, IH.
Qed.

Lemma reaction_weight_ext gw gw' modelname rxn :
  (∀ g, get_weight gw' g = get_weight gw g) →
  reaction_weight gw' modelname rxn = reaction_weight gw modelname rxn.
Proof.
  intros Hext. unfold reaction_weight.
  destruct (0 <? length (genes rxn))%nat; [|done].
  destruct (prepare_expr_split_gen_list rxn modelname) as [log [e|[es [gl|]]]]; try done.
  cbn. by rewrite (new_weights_of_ext _ _ _ Hext), (negweights_of_ext _ _ _ Hext).
Qed.

Lemma apply_gpr_loop_ext gw gw' modelname reactions acc :
  (∀ g, get_weight gw' g = get_weight gw g) →
  apply_gpr_loop gw' modelname reactions acc = apply_gpr_loop gw modelname reactions acc.
Proof.
  intros Hext. revert acc.
  induction reactions as [|r rest IH]; intros acc; [done|].
  cbn [apply_gpr_loop]. rewrite (reaction_weight_ext _ _ _ _ Hext).
  destruct (reaction_weight gw modelname r) as [log [e|w]]; [done|].
  cbn. by rewrite IH.
Qed.

(** C6.  A gene without an entry in the gene-weight table is looked up
    as [0]: the lookup has a value, and every reaction weight and every
    run of [apply_gpr] is what it is for the table that gives the gene
    the weight [0]. *)
Theorem missing_gene_weighs_zero gene_weights g :
  gene_weights !! g = None →
  get_weight gene_weights g = 0%Q
  ∧ (∀ modelname rxn,
       reaction_weight gene_weights modelname rxn
       = reaction_weight (<[g := 0%Q]> gene_weights) modelname rxn)
  ∧ (∀ model modelname save filename,
       apply_gpr model gene_weights modelname save filename
       = apply_gpr model (<[g := 0%Q]> gene_weights) modelname save filename).
Proof.
  intros Hnone. split; [|split].
  - unfold get_weight. by rewrite Hnone.
  - intros. symmetry. apply reaction_weight_ext. intros g'.
    by apply get_weight_insert_absent.
  - intros. unfold apply_gpr. f_equal. symmetry. apply apply_gpr_loop_ext.
    intros g'. by apply get_weight_insert_absent.
Qed.

Lemma missing_gene_weighs_zero_witness :
  get_weight example_weights "D" = 0%Q
  ∧ (∀ modelname rxn,
       reaction_weight example_weights modelname rxn
       = reaction_weight (<["D" := 0%Q]> example_weights) modelname rxn)
  ∧ (∀ model modelname save filename,
       apply_gpr model example_weights modelname save filename
       = apply_gpr model (<["D" := 0%Q]> example_weights) modelname save filename).
Proof. apply (missing_gene_weighs_zero example_weights "D"). reflexivity. Defined.

Example missing_gene_in_rule :
  reaction_weight (table [("A", 2%Q)]) "human1"
    {| rid := "R"; gene_reaction_rule := "A or D"; genes := ["A"; "D"] |}
  = ([], inr (Number 2))
  ∧ reaction_weight (table [("A", 2%Q)]) "human1"
      {| rid := "R"; gene_reaction_rule := "A and D"; genes := ["A"; "D"] |}
    = ([], inr (Number 0)).
Proof. split; reflexivity. Qed.

(** ** Unsupported naming conventions *)

Lemma not_in_model_list modelname :
  modelname ∉ Main.model_list →
  String.eqb modelname "human1" = false ∧ String.eqb modelname "recon1" = false
  ∧ String.eqb modelname "recon2" = false ∧ String.eqb modelname "iMM1865" = false
  ∧ String.eqb modelname "zebrafish1" = false.
Proof.
  intros Hnot. unfold Main.model_list in Hnot.
  repeat split; apply String.eqb_neq; intros ->; apply Hnot; set_solver.
Qed.

(** C7.  With a naming convention outside the five supported ones the
    tokenizer prints a message and returns [None] for the tokens and
    for the genes, and the script prints its own message, calls
    neither [apply_gpr] nor [save_reaction_weights] and has no table of
    reaction weights. *)
Theorem unsupported_modelname modelname :
  modelname ∉ Main.model_list →
  (∀ rxn, prepare_expr_split_gen_list rxn modelname
          = ([Print "Modelname not found"], inr (None, None)))
  ∧ (∀ model gene_weights output,
       Main.main model gene_weights modelname output
       = ([Print "Unsupported model. The currently supported models are: human1, recon1, recon2, iMM1865, zebrafish1"],
          inr None)).
Proof.
  intros Hnot. destruct (not_in_model_list _ Hnot) as (H1 & H2 & H3 & H4 & H5).
  split.
  - intros rxn. unfold prepare_expr_split_gen_list. by rewrite H1, H2, H3, H4, H5.
  - intros model gw output. unfold Main.main, Main.model_list. cbn [existsb].
    by rewrite H1, H2, H3, H4, H5.
Qed.

Lemma unsupported_modelname_witness :
  (∀ rxn, prepare_expr_split_gen_list rxn "recon3d"
          = ([Print "Modelname not found"], inr (None, None)))
  ∧ (∀ model gene_weights output,
       Main.main model gene_weights "recon3d" output
       = ([Print "Unsupported model. The currently supported models are: human1, recon1, recon2, iMM1865, zebrafish1"],
          inr None)).
Proof.
  apply (unsupported_modelname "recon3d").
  unfold Main.model_list. intros Hin. repeat (apply elem_of_cons in Hin as [Hin|Hin]; [discriminate|]).
  by apply elem_of_nil in Hin.
Defined.

(** Called directly with such a convention, [apply_gpr] stops at the
    first reaction that has genes. *)
Example apply_gpr_unsupported_raises :
  apply_gpr [example_reaction] example_weights "recon3d" true "reaction_weights"
  = ([Print "Modelname not found"], inl (TypeError "'NoneType' object is not iterable")).
Proof. reflexivity. Qed.

(** ** The worked example of the evaluator *)

(** C4, as amended.  For the rule [A and (B or C)] and the weights
    [A: 2], [B: 5], [C: -1] the reaction weight is [2]: [C] enters the
    expression as [-(-1) - 1e-15] with [1] recorded as flipped, the
    inner maximum of [5] and that value is [5], the outer minimum of
    [2] and [5] is [2], and [2 + 1e-15] is not a recorded magnitude. *)
Theorem example_rule_weight :
  new_weights_of example_weights ["A"; "B"; "C"]
  = [("A", 2%Q); ("B", 5%Q); ("C", (- (-1) - eps)%Q)]
  ∧ negweights_of example_weights ["A"; "B"; "C"] = [(- (-1))%Q]
  ∧ mk_Max [Number 5; Number (- (-1) - eps)] = Some (Number 5)
  ∧ mk_Min [Number 2; Number 5] = Some (Number 2)
  ∧ in_negweights (Number 2) [(- (-1))%Q] = false
  ∧ reaction_weight example_weights "human1" example_reaction = ([], inr (Number 2)).
Proof. repeat split; vm_compute; reflexivity. Qed.

(** The value [C] enters with is [1 - 1e-15], not [-1 - 1e-15]. *)
Lemma example_rule_operand_of_C :
  ∃ v, ("C", v) ∈ new_weights_of example_weights ["A"; "B"; "C"]
       ∧ (v == 1 - eps)%Q ∧ ¬ (v == -1 - eps)%Q.
Proof.
  exists (- (-1) - eps)%Q. split; [|split].
  - vm_compute. set_solver.
  - reflexivity.
  - intros H. vm_compute in H. discriminate H.
Qed.

(** ** The worked example of the discretizer *)


(** ** The gene-weight table of the script *)

Section GeneWeightTable.
Import Main.














End GeneWeightTable.



(** ** Sign handling *)










(** ** Strings *)

Section Strings.
Import PyStr.

Lemma app_String c s t : String c s +:+ t = String c (s +:+ t).
Proof. reflexivity. Qed.

Lemma app_empty_l t : "" +:+ t = t.
Proof. reflexivity. Qed.

Lemma app_empty_r s : s +:+ "" = s.
Proof. induction s as [|c s IH]; [done|]. by rewrite app_String, IH. Qed.


Lemma startswith_String a p b s :
  startswith (String a p) (String b s) = Ascii.eqb a b && startswith p s.
Proof. cbn [startswith]. by destruct (Ascii.eqb a b). Qed.










End Strings.

(** ** The tokenizer on chains of identifiers *)

Section Lexing.
Import PyStr Parser.


Lemma lex_identifier g rest :
  ∀ inside,
    g ≠ "" → all_chars is_ident_char g = true →
    (inside = true ∨ is_identifier g = true) →
    ends_identifier rest →
    lex inside (g +:+ rest) = cons (TIdent g) <$> lex false rest.
Proof.
  induction g as [|c g IH]; intros inside Hne Hall Hstart Hend; [done|].
  cbn [all_chars] in Hall. apply andb_true_iff in Hall as [Hc Hall].
  assert (inside || is_ident_start c = true) as Hgo.
  { destruct Hstart as [->|Hid]; [done|]. cbn [is_identifier] in Hid.
    apply andb_true_iff in Hid as [-> _]. by rewrite orb_true_r. }
  rewrite app_String. cbn [lex]. rewrite Hc, Hgo.
  destruct g as [|c2 g].
  - rewrite app_empty_l. destruct rest as [|c' rest]; [done|].
    cbn in Hend. by rewrite Hend.
  - rewrite app_String. cbn [all_chars] in Hall.
    apply andb_true_iff in Hall as [Hc2 Hall]. rewrite Hc2.
    rewrite <- app_String.
    rewrite (IH true);
      [|done|by cbn [all_chars]; rewrite Hc2|by left|done].
    by destruct (lex false rest).
Qed.

Lemma identifier_chars g :
  is_identifier g = true → g ≠ "" ∧ all_chars is_ident_char g = true.
Proof.
  destruct g as [|c g]; [done|]. cbn [is_identifier all_chars].
  intros [Hc Hall]%andb_true_iff. split; [done|].
  unfold is_ident_char at 1. by rewrite Hc, Hall.
Qed.

Lemma chain_tail_ends sym gs : ends_identifier (chain_tail sym gs).
Proof. by destruct gs. Qed.


End Lexing.

(** ** The parser on chains of identifiers *)

Section Parsing.
Import Parser.

Lemma parse_sum_S n ts :
  parse_sum (S n) ts = parse_product n ts ≫= fun '(t, r) => sum_rest n t r.
Proof. reflexivity. Qed.

Lemma sum_rest_plus n acc r :
  sum_rest (S n) acc (TPlus :: r)
  = parse_product n r ≫= fun '(t, r') => sum_rest n (add acc t) r'.
Proof. reflexivity. Qed.


Lemma parse_product_S n ts :
  parse_product (S n) ts = parse_atom n ts ≫= fun '(f, r) => product_rest n f r.
Proof. reflexivity. Qed.

Lemma product_rest_star n acc r :
  product_rest (S n) acc (TStar :: r)
  = parse_atom n r ≫= fun '(f, r') => product_rest n (mul acc f) r'.
Proof. reflexivity. Qed.

Lemma product_rest_nil n acc : product_rest (S n) acc [] = Some (acc, []).
Proof. reflexivity. Qed.

Lemma product_rest_plus n acc r :
  product_rest (S n) acc (TPlus :: r) = Some (acc, TPlus :: r).
Proof. reflexivity. Qed.








(** An identifier used as a key is read as the symbol of its name,
    unless it names a constant. *)
Lemma key_symbol_identifier g :
  is_identifier g = true → key_symbol g = if is_constant g then None else Some g.
Proof.
  intros Hid. destruct (identifier_chars _ Hid) as [Hne Hall].
  unfold key_symbol, sympify.
  pose proof (lex_identifier g "" false Hne Hall (or_intror Hid) I) as Hlex.
  rewrite app_empty_r in Hlex. rewrite Hlex. cbn [lex fmap option_fmap option_map mbind option_bind].
  unfold parse, fuel_for. cbn [length Nat.mul Nat.add].
  rewrite parse_sum_S, parse_product_S. cbn [parse_atom].
  by destruct (is_constant g).
Qed.

End Parsing.

(** ** Sums and products of distinct symbols *)

Section Canonical.












End Canonical.

(** ** Extrema of symbols and of numbers *)

Section Extrema.
Context (pick : Q → Q → Q) (nested : expr → option (list expr)) (mk : list expr → expr).
Hypothesis nested_symbol : ∀ g, nested (Symbol g) = None.
Hypothesis nested_number : ∀ q, nested (Number q) = None.




Lemma extremum_args_numbers vs :
  ∀ m, foldl (extremum_args pick nested) (Some m, []) (map Number vs)
       = (Some (foldl pick m vs), []).
Proof.
  induction vs as [|v vs IH]; intros m; [done|].
  cbn [map foldl]. unfold extremum_args at 2. rewrite nested_number.
  cbn [extremum_arg fst snd from_option]. apply IH.
Qed.

Lemma extremum_numbers v vs :
  extremum pick nested mk (map Number (v :: vs)) = Some (Number (foldl pick v vs)).
Proof.
  unfold extremum. cbn [map foldl]. unfold extremum_args at 2. rewrite nested_number.
  cbn [extremum_arg fst snd from_option]. by rewrite extremum_args_numbers.
Qed.

End Extrema.


(** ** Rules that chain genes with one connective *)

Section ChainRules.
Import Parser.






End ChainRules.

(** ** Rules written as chains, under the [human1] convention *)

Section Human1.
Import PyStr.









End Human1.

Section ChainWeights.



End ChainWeights.



(** ** Operator substitution inside identifiers *)

Section Substitution.
Import PyStr.

Lemma startswith_app p s r :
  startswith p s = true → startswith p (s +:+ r) = true.
Proof.
  revert s. induction p as [|a p IH]; intros [|b s]; cbn [startswith]; try done.
  rewrite app_String. cbn [startswith]. destruct (Ascii.eqb a b); [apply IH|done].
Qed.

Lemma startswith_split g t :
  startswith g t = true → ∃ r, t = g +:+ r.
Proof.
  revert t. induction g as [|a g IH]; intros t; [by exists t|].
  destruct t as [|b t]; cbn [startswith]; [done|].
  destruct (Ascii.eqb_spec a b) as [->|]; [|done].
  intros [r ->]%IH. by exists r.
Qed.

Lemma occurs_cons p c s : occurs p s = true → occurs p (String c s) = true.
Proof. intros H. cbn [occurs]. rewrite H. apply orb_true_r. Qed.

Lemma occurs_app p g r : occurs p g = true → occurs p (g +:+ r) = true.
Proof.
  induction g as [|c g IH].
  - cbn [occurs]. rewrite orb_false_r. intros H. destruct p; [|done]. by destruct r.
  - cbn [occurs]. intros [H|H]%orb_true_iff.
    + rewrite app_String. cbn [occurs]. rewrite <- app_String, (startswith_app _ _ _ H). done.
    + rewrite app_String. apply occurs_cons. by apply IH.
Qed.

(** What occurs in a part occurs in the whole. *)
Lemma occurs_trans p g t :
  occurs p g = true → occurs g t = true → occurs p t = true.
Proof.
  intros Hp. induction t as [|c t IH]; intros Ho; cbn [occurs] in Ho.
  - rewrite orb_false_r in Ho. apply startswith_split in Ho as [r Hr].
    destruct g; [|done]. by destruct p.
  - apply orb_true_iff in Ho as [H|H].
    + apply startswith_split in H as [r Hr]. rewrite Hr. by apply occurs_app.
    + apply occurs_cons. by apply IH.
Qed.

Lemma occurs_tail p c s : occurs p (String c s) = false → occurs p s = false.
Proof. cbn [occurs]. by intros [_ ?]%orb_false_iff. Qed.

(** The first character left by a replacement with a one-character
    [new] is that character or the first of the text. *)
Lemma replace_go_head old n s x :
  old ≠ "" →
  startswith (String x "") (replace_go old (String n "") 0 s) = true →
  (startswith old s = true ∧ x = n)
  ∨ (startswith old s = false ∧ startswith (String x "") s = true).
Proof.
  intros Hne. destruct s as [|c s]; [done|]. cbn [replace_go].
  destruct (startswith old (String c s)).
  - rewrite app_String, app_empty_l. cbn [startswith].
    destruct (Ascii.eqb_spec x n); [auto|done].
  - cbn [startswith]. destruct (Ascii.eqb x c); [auto|done].
Qed.

Lemma no_or_after_replace s : ∀ k, occurs "or" (replace_go "or" "*" k s) = false.
Proof.
  induction s as [|c s IH]; intros k; [done|].
  destruct k as [|k]; cbn [replace_go]; [|apply IH].
  destruct (startswith "or" (String c s)) eqn:Hs.
  - rewrite app_String, app_empty_l. cbn [occurs]. rewrite IH. reflexivity.
  - cbn [occurs]. rewrite IH, orb_false_r.
    rewrite startswith_String in Hs |- *.
    destruct (Ascii.eqb "o" c); [cbn [andb] in *|done].
    destruct (startswith "r" (replace_go "or" "*" 0 s)) eqn:Hr; [|done].
    apply replace_go_head in Hr as [[_ [=]]|[_ Hr]]; [congruence|done].
Qed.

Lemma or_stays_out s :
  ∀ k, occurs "or" s = false → occurs "or" (replace_go "and" "+" k s) = false.
Proof.
  induction s as [|c s IH]; intros k Ho; [done|].
  pose proof (occurs_tail _ _ _ Ho) as Ho'.
  destruct k as [|k]; cbn [replace_go]; [|by apply IH].
  destruct (startswith "and" (String c s)) eqn:Hs.
  - rewrite app_String, app_empty_l. cbn [occurs]. rewrite IH by done. reflexivity.
  - cbn [occurs]. rewrite IH, orb_false_r by done.
    cbn [occurs] in Ho. apply orb_false_iff in Ho as [Ho _].
    rewrite startswith_String in Ho |- *.
    destruct (Ascii.eqb "o" c); [cbn [andb] in *|done].
    destruct (startswith "r" (replace_go "and" "+" 0 s)) eqn:Hr; [|done].
    apply replace_go_head in Hr as [[_ [=]]|[_ Hr]]; [congruence|done].
Qed.

Lemma no_and_after_replace s : ∀ k, occurs "and" (replace_go "and" "+" k s) = false.
Proof.
  induction s as [|c s IH]; intros k; [done|].
  destruct k as [|k]; cbn [replace_go]; [|apply IH].
  destruct (startswith "and" (String c s)) eqn:Hs.
  - rewrite app_String, app_empty_l. cbn [occurs]. rewrite IH. reflexivity.
  - cbn [occurs]. rewrite IH, orb_false_r.
    destruct (startswith "and" (String c (replace_go "and" "+" 0 s))) eqn:Hout; [|done].
    exfalso. rewrite startswith_String in Hs, Hout.
    destruct (Ascii.eqb "a" c); [cbn [andb] in *|done].
    destruct s as [|c1 s]; [done|]. cbn [replace_go] in Hout.
    destruct (startswith "and" (String c1 s)) eqn:Hs1.
    { rewrite app_String, app_empty_l in Hout. discriminate Hout. }
    rewrite startswith_String in Hs, Hout.
    destruct (Ascii.eqb "n" c1); [cbn [andb] in *|done].
    apply replace_go_head in Hout as [[_ [=]]|[_ Hd]]; [congruence|done].
Qed.

(** The text handed to the parser holds neither [or] nor [and], so no
    identifier holding one of them is left in it. *)
Lemma expression_of_free expr_split :
  occurs "or" (expression_of expr_split) = false
  ∧ occurs "and" (expression_of expr_split) = false.
Proof.
  unfold expression_of, replace. split.
  - apply or_stays_out, no_or_after_replace.
  - apply no_and_after_replace.
Qed.

Lemma corrupted_identifier_absent g expr_split :
  occurs "or" g || occurs "and" g = true →
  occurs g (expression_of expr_split) = false.
Proof.
  intros Hg. destruct (expression_of_free expr_split) as [Hor Hand].
  destruct (occurs g (expression_of expr_split)) eqn:Ho; [|done].
  apply orb_true_iff in Hg as [Hg|Hg].
  - by rewrite (occurs_trans _ _ _ Hg Ho) in Hor.
  - by rewrite (occurs_trans _ _ _ Hg Ho) in Hand.
Qed.

End Substitution.

(** ** The symbols of an expression *)

Section Symbols.

Lemma expr_nested_ind (P : expr → Prop) :
  (∀ s, P (Symbol s)) → (∀ q, P (Number q)) →
  (∀ l, Forall P l → P (Add l)) → (∀ l, Forall P l → P (Mul l)) →
  (∀ b x, P b → P x → P (Pow b x)) →
  (∀ l, Forall P l → P (Max l)) → (∀ l, Forall P l → P (Min l)) →
  ∀ e, P e.
Proof.
  intros Hs Hn Ha Hm Hp Hx Hi. fix IH 1. intros [s|q|l|l|b x|l|l].
  - apply Hs.
  - apply Hn.
  - apply Ha. induction l as [|a l IHl]; constructor; [apply IH|exact IHl].
  - apply Hm. induction l as [|a l IHl]; constructor; [apply IH|exact IHl].
  - apply Hp; apply IH.
  - apply Hx. induction l as [|a l IHl]; constructor; [apply IH|exact IHl].
  - apply Hi. induction l as [|a l IHl]; constructor; [apply IH|exact IHl].
Qed.

Lemma symbols_of_factors l : symbols (of_factors l) ⊆ l ≫= symbols.
Proof. destruct l as [|x [|y l]]; cbn; set_solver. Qed.

Lemma symbols_as_coef_term e : symbols (as_coef_term e).2 ⊆ symbols e.
Proof.
  destruct e as [s|q|l|l|b x|l|l]; try done.
  destruct l as [|[s|q|l'|l'|b x|l'|l'] l]; try done.
  cbn [as_coef_term snd]. etrans; [apply symbols_of_factors|]. cbn. set_solver.
Qed.

Lemma dict_symbols_add_term d t c :
  dict_symbols (dict_add_term d t c) ⊆ dict_symbols d ++ symbols t.
Proof.
  unfold dict_symbols. induction d as [|[t' c'] d IH]; cbn [dict_add_term].
  - cbn. set_solver.
  - destruct (expr_eqb t t').
    + destruct (Qeq_bool (c' + c) 0); cbn; set_solver.
    + cbn. set_solver.
Qed.

Lemma dict_symbols_add_operand acc e :
  dict_symbols (add_operand acc e).2 ⊆ dict_symbols acc.2 ++ symbols e.
Proof.
  pose proof (symbols_as_coef_term e) as Hct.
  unfold add_operand. destruct (as_coef_term e) as [c t] eqn:Hce. cbn [snd] in Hct.
  destruct e as [s|q|l|l|b x|l|l]; cbn [snd];
    try (etrans; [apply dict_symbols_add_term|]; set_solver).
  set_solver.
Qed.

Lemma dict_symbols_mul_operand acc e :
  dict_symbols (mul_operand acc e).2 ⊆ dict_symbols acc.2 ++ symbols e.
Proof.
  destruct e as [s|q|l|l|b x|l|l]; cbn [mul_operand snd];
    try (etrans; [apply dict_symbols_add_term|]; set_solver).
  - set_solver.
  - destruct x; cbn [snd]; (etrans; [apply dict_symbols_add_term|]); cbn; set_solver.
Qed.

Lemma dict_symbols_foldl (operand : Q * list (expr * Q) → expr → Q * list (expr * Q)) :
  (∀ acc e, dict_symbols (operand acc e).2 ⊆ dict_symbols acc.2 ++ symbols e) →
  ∀ l acc, dict_symbols (foldl operand acc l).2 ⊆ dict_symbols acc.2 ++ (l ≫= symbols).
Proof.
  intros Hop. induction l as [|e l IH]; intros acc; cbn [foldl].
  - set_solver.
  - etrans; [apply IH|]. pose proof (Hop acc e). set_solver.
Qed.

Lemma dict_symbols_add_operands acc e :
  dict_symbols (add_operands acc e).2 ⊆ dict_symbols acc.2 ++ symbols e.
Proof.
  destruct e as [s|q|l|l|b x|l|l]; try apply dict_symbols_add_operand.
  apply (dict_symbols_foldl add_operand dict_symbols_add_operand).
Qed.

Lemma dict_symbols_mul_operands acc e :
  dict_symbols (mul_operands acc e).2 ⊆ dict_symbols acc.2 ++ symbols e.
Proof.
  destruct e as [s|q|l|l|b x|l|l]; try apply dict_symbols_mul_operand.
  apply (dict_symbols_foldl mul_operand dict_symbols_mul_operand).
Qed.

Lemma symbols_with_coef tc : symbols (with_coef tc) ⊆ symbols tc.1.
Proof.
  unfold with_coef. destruct (Qeq_bool tc.2 1); [done|].
  destruct tc.1; cbn; set_solver.
Qed.

Lemma symbols_with_exp be : symbols (with_exp be) ⊆ symbols be.1.
Proof. unfold with_exp. destruct (Qeq_bool be.2 1); cbn; set_solver. Qed.

Lemma symbols_map (f : expr * Q → expr) d :
  (∀ tc, symbols (f tc) ⊆ symbols tc.1) →
  (map f d ≫= symbols) ⊆ dict_symbols d.
Proof.
  intros Hf. unfold dict_symbols. induction d as [|tc d IH]; cbn; [done|].
  pose proof (Hf tc). set_solver.
Qed.

Lemma symbols_add_from_dict coef d : symbols (add_from_dict coef d) ⊆ dict_symbols d.
Proof.
  pose proof (symbols_map with_coef d symbols_with_coef) as Hmap.
  unfold add_from_dict. destruct d as [|tc [|tc' d]]; [done| |].
  - pose proof (symbols_with_coef tc). unfold dict_symbols.
    destruct (Qeq_bool coef 0); cbn; set_solver.
  - destruct (Qeq_bool coef 0); cbn in *; set_solver.
Qed.

Lemma symbols_mul_from_dict coef d : symbols (mul_from_dict coef d) ⊆ dict_symbols d.
Proof.
  pose proof (symbols_map with_exp d symbols_with_exp) as Hmap.
  unfold mul_from_dict. destruct (Qeq_bool coef 0); [set_solver|].
  destruct d as [|be [|be' d]]; [done| |].
  - pose proof (symbols_with_exp be). unfold dict_symbols.
    destruct (Qeq_bool coef 1); cbn; set_solver.
  - destruct (Qeq_bool coef 1); cbn in *; set_solver.
Qed.

(** Canonical sums and products invent no symbol. *)
Lemma symbols_add a b : symbols (add a b) ⊆ symbols a ++ symbols b.
Proof.
  unfold add. destruct (add_operands _ b) as [coef d] eqn:Hd.
  etrans; [apply symbols_add_from_dict|].
  pose proof (dict_symbols_add_operands (add_operands (0%Q, []) a) b) as H1.
  pose proof (dict_symbols_add_operands (0%Q, []) a) as H2.
  rewrite Hd in H1. cbn [snd] in H1. set_solver.
Qed.

Lemma symbols_mul a b : symbols (mul a b) ⊆ symbols a ++ symbols b.
Proof.
  unfold mul. destruct (mul_operands _ b) as [coef d] eqn:Hd.
  etrans; [apply symbols_mul_from_dict|].
  pose proof (dict_symbols_mul_operands (mul_operands (1%Q, []) a) b) as H1.
  pose proof (dict_symbols_mul_operands (1%Q, []) a) as H2.
  rewrite Hd in H1. cbn [snd] in H1. set_solver.
Qed.

Lemma symbols_pow b x : symbols (pow b x) ⊆ symbols b ++ symbols x.
Proof.
  unfold pow. destruct b; try done. destruct x; try done.
  destruct (Qeq_bool _ _); [set_solver|done].
Qed.

End Symbols.

(** ** The symbols of a parsed text occur in the text *)

Section ParsedSymbols.
Import PyStr Parser.

Lemma occurs_prefix w s : startswith w s = true → occurs w s = true.
Proof. intros H. destruct s; cbn [occurs]; by rewrite H. Qed.

Lemma punct_not_ident c t : punct c = Some t → idents [t] = [].
Proof.
  unfold punct. repeat (destruct (Ascii.eqb c _); [by intros [= <-]|]). done.
Qed.

Lemma lex_idents s :
  ∀ inside ts, lex inside s = Some ts →
    (∀ w, w ∈ idents ts → occurs w s = true)
    ∧ (∀ w ts' c s', ts = TIdent w :: ts' → s = String c s' → is_ident_char c = true →
                     startswith w s = true).
Proof.
  induction s as [|c s IH]; intros inside ts Hlex.
  - injection Hlex as <-. split; [by intros w ?%elem_of_nil|done].
  - cbn [lex] in Hlex. destruct (is_ident_char c) eqn:Hc.
    + destruct (inside || is_ident_start c); [|done].
      destruct s as [|c' s'].
      * injection Hlex as <-. split.
        -- intros w ->%list_elem_of_singleton. apply occurs_prefix.
           cbn [startswith]. by rewrite Ascii.eqb_refl.
        -- intros w ts' c0 s0 [= <- <-] _ _. cbn [startswith]. by rewrite Ascii.eqb_refl.
      * destruct (is_ident_char c') eqn:Hc'.
        -- destruct (lex true (String c' s')) as [[|[w| | | |] ts']|] eqn:Hrest; try done.
           injection Hlex as <-. destruct (IH _ _ Hrest) as [Hall Hhead].
           assert (startswith (String c w) (String c (String c' s')) = true) as Hpre.
           { rewrite startswith_String, Ascii.eqb_refl. cbn [andb]. by eapply Hhead. }
           split.
           ++ cbn [idents omap list_omap]. intros x [->|Hx]%elem_of_cons.
              ** by apply occurs_prefix.
              ** apply occurs_cons, Hall. cbn [idents omap list_omap]. by right.
           ++ by intros w0 ts0 c0 s0 [= <- <-] _ _.
        -- destruct (lex false (String c' s')) as [ts'|] eqn:Hrest; [|done].
           injection Hlex as <-. destruct (IH _ _ Hrest) as [Hall _]. split.
           ++ cbn [idents omap list_omap]. intros x [->|Hx]%elem_of_cons.
              ** apply occurs_prefix. cbn [startswith]. by rewrite Ascii.eqb_refl.
              ** by apply occurs_cons, Hall.
           ++ intros w0 ts0 c0 s0 [= <- <-] _ _. cbn [startswith]. by rewrite Ascii.eqb_refl.
    + assert (∀ ts', lex false s = Some ts' →
                     ∀ w, w ∈ idents ts' → occurs w (String c s) = true) as Hskip.
      { intros ts' Hrest w Hw. destruct (IH _ _ Hrest) as [Hall _]. by apply occurs_cons, Hall. }
      destruct (is_blank c).
      * split; [by eapply Hskip|]. intros w ts' c0 s0 _ [= <- <-]. congruence.
      * destruct (punct c) as [t|] eqn:Hp; [|done].
        destruct (lex false s) as [ts'|] eqn:Hrest; [|done]. injection Hlex as <-.
        split.
        -- intros w Hw. apply (Hskip _ eq_refl).
           change (t :: ts') with ([t] ++ ts') in Hw. unfold idents in *.
           rewrite omap_app in Hw. fold (idents [t]) in Hw.
           by rewrite (punct_not_ident _ _ Hp) in Hw.
        -- intros w ts0 c0 s0 _ [= <- <-]. congruence.
Qed.

Lemma idents_cons t ts : idents ts ⊆ idents (t :: ts).
Proof. unfold idents. cbn [omap list_omap]. destruct t; set_solver. Qed.

(** The descent consumes tokens from the front and takes its symbols
    from the identifiers it consumes. *)
Lemma parse_symbols n :
  (∀ ts e r, parse_sum n ts = Some (e, r) →
             symbols e ⊆ idents ts ∧ idents r ⊆ idents ts)
  ∧ (∀ acc ts e r, sum_rest n acc ts = Some (e, r) →
                   symbols e ⊆ symbols acc ++ idents ts ∧ idents r ⊆ idents ts)
  ∧ (∀ ts e r, parse_product n ts = Some (e, r) →
               symbols e ⊆ idents ts ∧ idents r ⊆ idents ts)
  ∧ (∀ acc ts e r, product_rest n acc ts = Some (e, r) →
                   symbols e ⊆ symbols acc ++ idents ts ∧ idents r ⊆ idents ts)
  ∧ (∀ ts e r, parse_atom n ts = Some (e, r) →
               symbols e ⊆ idents ts ∧ idents r ⊆ idents ts).
Proof.
  induction n as [|n (IHsum & IHsrest & IHprod & IHprest & IHatom)];
    [repeat split; discriminate|].
  repeat apply conj.
  - intros ts e r. rewrite parse_sum_S.
    destruct (parse_product n ts) as [[t r0]|] eqn:Hp; [|done]. cbn [mbind option_bind].
    intros Hs. destruct (IHprod _ _ _ Hp), (IHsrest _ _ _ _ Hs). set_solver.
  - intros acc [|[w| | | |] ts] e r; try (intros [= <- <-]; set_solver).
    rewrite sum_rest_plus.
    destruct (parse_product n ts) as [[t r0]|] eqn:Hp; [|done]. cbn [mbind option_bind].
    intros Hs. destruct (IHprod _ _ _ Hp), (IHsrest _ _ _ _ Hs).
    pose proof (symbols_add acc t). pose proof (idents_cons TPlus ts). set_solver.
  - intros ts e r. rewrite parse_product_S.
    destruct (parse_atom n ts) as [[f r0]|] eqn:Hp; [|done]. cbn [mbind option_bind].
    intros Hs. destruct (IHatom _ _ _ Hp), (IHprest _ _ _ _ Hs). set_solver.
  - intros acc [|[w| | | |] ts] e r; try (intros [= <- <-]; set_solver).
    rewrite product_rest_star.
    destruct (parse_atom n ts) as [[f r0]|] eqn:Hp; [|done]. cbn [mbind option_bind].
    intros Hs. destruct (IHatom _ _ _ Hp), (IHprest _ _ _ _ Hs).
    pose proof (symbols_mul acc f). pose proof (idents_cons TStar ts). set_solver.
  - intros [|[w| | | |] ts] e r; cbn [parse_atom]; try done.
    + destruct (is_constant w); [done|]. intros [= <- <-].
      unfold idents. cbn [omap list_omap symbols]. set_solver.
    + destruct (parse_sum n ts) as [[e0 r0]|] eqn:Hp; [|done]. cbn [mbind option_bind].
      destruct r0 as [|[w| | | |] r0]; try done. intros [= <- <-].
      destruct (IHsum _ _ _ Hp). pose proof (idents_cons TLParen ts).
      pose proof (idents_cons TRParen r0). set_solver.
Qed.

Lemma sympify_symbols text tree s :
  sympify text = Some tree → s ∈ symbols tree → occurs s text = true.
Proof.
  unfold sympify, parse. destruct (lex false text) as [ts|] eqn:Hlex; [|done].
  cbn [mbind option_bind].
  destruct (parse_sum _ ts) as [[e [|t r]]|] eqn:Hp; try done. intros [= <-] Hs.
  destruct (lex_idents _ _ _ Hlex) as [Hall _]. apply Hall.
  destruct (parse_symbols (fuel_for ts)) as (Hsum & _).
  destruct (Hsum _ _ _ Hp) as [Hsub _]. by apply Hsub.
Qed.

End ParsedSymbols.

(** ** Rewriting and substitution *)

Section RewriteSubst.

Lemma symbols_insert_arg e l :
  (insert_arg e l ≫= symbols) ⊆ (l ≫= symbols) ++ symbols e.
Proof.
  induction l as [|x l IH]; cbn [insert_arg]; [cbn; set_solver|].
  destruct (expr_eqb e x); cbn in *; set_solver.
Qed.

Lemma symbols_extremum_arg pick acc e :
  ((extremum_arg pick acc e).2 ≫= symbols) ⊆ (acc.2 ≫= symbols) ++ symbols e.
Proof.
  destruct e as [s|q|l|l|b x|l|l]; cbn [extremum_arg snd];
    try apply symbols_insert_arg.
  set_solver.
Qed.

Lemma symbols_extremum_fold pick l :
  ∀ acc, ((foldl (extremum_arg pick) acc l).2 ≫= symbols)
         ⊆ (acc.2 ≫= symbols) ++ (l ≫= symbols).
Proof.
  induction l as [|e l IH]; intros acc; cbn [foldl]; [set_solver|].
  etrans; [apply IH|]. pose proof (symbols_extremum_arg pick acc e). set_solver.
Qed.

Lemma symbols_extremum pick nested mk args e :
  (∀ x inner, nested x = Some inner → (inner ≫= symbols) ⊆ symbols x) →
  (∀ l, symbols (mk l) = l ≫= symbols) →
  extremum pick nested mk args = Some e → symbols e ⊆ args ≫= symbols.
Proof.
  intros Hnested Hmk. unfold extremum.
  assert (∀ l acc, ((foldl (extremum_args pick nested) acc l).2 ≫= symbols)
                   ⊆ (acc.2 ≫= symbols) ++ (l ≫= symbols)) as Hfold.
  { induction l as [|x l IH]; intros acc; cbn [foldl]; [set_solver|].
    etrans; [apply IH|].
    assert (((extremum_args pick nested acc x).2 ≫= symbols)
            ⊆ (acc.2 ≫= symbols) ++ symbols x) as Hone.
    { unfold extremum_args. destruct (nested x) as [inner|] eqn:Hn.
      - etrans; [apply symbols_extremum_fold|]. pose proof (Hnested _ _ Hn). set_solver.
      - apply symbols_extremum_arg. }
    set_solver. }
  specialize (Hfold args (None, [])).
  destruct (foldl _ _ args) as [num others]. cbn [snd] in Hfold.
  assert (((others ++ from_option (fun q => [Number q]) [] num) ≫= symbols)
          ⊆ args ≫= symbols) as Hfinal.
  { rewrite bind_app. cbn [fst snd] in Hfold. cbn in Hfold.
    destruct num; cbn; rewrite app_nil_r; exact Hfold. }
  destruct (others ++ _) as [|x [|y final]]; [done| |].
  - intros [= <-]. cbn in Hfinal. set_solver.
  - intros [= <-]. by rewrite Hmk.
Qed.

Lemma symbols_mk_Max args e : mk_Max args = Some e → symbols e ⊆ args ≫= symbols.
Proof.
  apply symbols_extremum; [|done]. intros [] inner; try done. by intros [= <-].
Qed.

Lemma symbols_mk_Min args e : mk_Min args = Some e → symbols e ⊆ args ≫= symbols.
Proof.
  apply symbols_extremum; [|done]. intros [] inner; try done. by intros [= <-].
Qed.

Lemma symbols_mapM (f : expr → option expr) l :
  Forall (fun e => ∀ e', f e = Some e' → symbols e' ⊆ symbols e) l →
  ∀ l', mapM f l = Some l' → (l' ≫= symbols) ⊆ l ≫= symbols.
Proof.
  induction 1 as [|e l He _ IH]; intros l'; cbn [mapM].
  - by intros [= <-].
  - destruct (f e) as [e'|] eqn:Hfe; [|done]. cbn [mbind option_bind].
    destruct (mapM f l) as [l0|]; [|done]. intros [= <-].
    specialize (He _ eq_refl). specialize (IH _ eq_refl). cbn. set_solver.
Qed.

(** The rewriting to [Max] and [Min] invents no symbol. *)
Lemma symbols_replace e :
  ∀ e', replace_MulMax_AddMin e = Some e' → symbols e' ⊆ symbols e.
Proof.
  induction e as [s|q|l IH|l IH|b x IHb IHx|l IH|l IH] using expr_nested_ind;
    intros e'; cbn [replace_MulMax_AddMin].
  - by intros [= <-].
  - by intros [= <-].
  - destruct (mapM _ l) as [l'|] eqn:Hm; [|done]. cbn [mbind option_bind].
    intros H%symbols_mk_Min. pose proof (symbols_mapM _ _ IH _ Hm). cbn. set_solver.
  - destruct (mapM _ l) as [l'|] eqn:Hm; [|done]. cbn [mbind option_bind].
    intros H%symbols_mk_Max. pose proof (symbols_mapM _ _ IH _ Hm). cbn. set_solver.
  - destruct (replace_MulMax_AddMin b) as [b'|] eqn:Hb; [|done].
    destruct (replace_MulMax_AddMin x) as [x'|] eqn:Hx; [|done].
    cbn [mbind option_bind]. intros [= <-].
    pose proof (symbols_pow b' x'). specialize (IHb _ eq_refl). specialize (IHx _ eq_refl).
    cbn. set_solver.
  - destruct (mapM _ l) as [l'|] eqn:Hm; [|done]. cbn [mbind option_bind].
    intros H%symbols_mk_Max. pose proof (symbols_mapM _ _ IH _ Hm). cbn. set_solver.
  - destruct (mapM _ l) as [l'|] eqn:Hm; [|done]. cbn [mbind option_bind].
    intros H%symbols_mk_Min. pose proof (symbols_mapM _ _ IH _ Hm). cbn. set_solver.
Qed.

Lemma mapM_agree (f g : expr → option expr) l :
  Forall (fun e => (∀ s, s ∈ symbols e → s ∈ l ≫= symbols) → f e = g e) l →
  mapM f l = mapM g l.
Proof.
  intros Hall.
  assert (Forall (fun e => f e = g e) l) as Heq.
  { apply Forall_forall. intros e He. rewrite Forall_forall in Hall. apply (Hall _ He).
    intros s Hs. apply list_elem_of_bind. eauto. }
  clear Hall. induction Heq as [|e l He _ IH]; [done|].
  cbn [mapM]. by rewrite He, IH.
Qed.

(** Two tables that agree on the symbols of an expression give it the
    same value. *)
Lemma subs_agree (d d' : gmap string Q) e :
  (∀ s, s ∈ symbols e → d !! s = d' !! s) → subs d e = subs d' e.
Proof.
  induction e as [s|q|l IH|l IH|b x IHb IHx|l IH|l IH] using expr_nested_ind;
    intros Hd; cbn [subs].
  - rewrite Hd; [done|]. cbn. by left.
  - done.
  - rewrite (mapM_agree (subs d) (subs d') l); [done|].
    eapply Forall_impl; [exact IH|]. intros e He Hsub. apply He. intros s Hs. by apply Hd, Hsub.
  - rewrite (mapM_agree (subs d) (subs d') l); [done|].
    eapply Forall_impl; [exact IH|]. intros e He Hsub. apply He. intros s Hs. by apply Hd, Hsub.
  - rewrite IHb, IHx; [done| |]; intros s Hs; apply Hd; cbn; set_solver.
  - rewrite (mapM_agree (subs d) (subs d') l); [done|].
    eapply Forall_impl; [exact IH|]. intros e He Hsub. apply He. intros s Hs. by apply Hd, Hsub.
  - rewrite (mapM_agree (subs d) (subs d') l); [done|].
    eapply Forall_impl; [exact IH|]. intros e He Hsub. apply He. intros s Hs. by apply Hd, Hsub.
Qed.

End RewriteSubst.

(** ** Identifiers that hold [or] or [and] *)

(** One step of a computation in [io]. *)
Ltac io_step := cbn [io_bind io_of_option io_ret io_raise].

Section Corrupted.
Import Parser.

Lemma tree_free_of_corrupted g expr_split tree tree' :
  occurs "or" g || occurs "and" g = true →
  sympify (expression_of expr_split) = Some tree →
  replace_MulMax_AddMin tree = Some tree' →
  g ∉ symbols tree'.
Proof.
  intros Hg Hparse Hrepl Hin.
  apply (symbols_replace _ _ Hrepl) in Hin.
  apply (sympify_symbols _ _ _ Hparse) in Hin.
  by rewrite (corrupted_identifier_absent _ _ Hg) in Hin.
Qed.

Lemma negweights_insert_nonnegative gene_weights g v gen_list :
  (0 <= get_weight gene_weights g)%Q → (0 <= v)%Q →
  negweights_of (<[g := v]> gene_weights) gen_list = negweights_of gene_weights gen_list.
Proof.
  intros Hold Hnew. unfold negweights_of.
  induction gen_list as [|x l IH]; [done|]. cbn [omap list_omap]. rewrite IH.
  destruct (decide (x = g)) as [->|Hne].
  - replace (get_weight (<[g := v]> gene_weights) g) with v
      by (unfold get_weight; by rewrite lookup_insert_eq).
    destruct (Qlt_le_dec v 0) as [Hlt|_]; [by apply Qlt_not_le in Hlt|].
    destruct (Qlt_le_dec (get_weight gene_weights g) 0) as [Hlt|_];
      [by apply Qlt_not_le in Hlt|].
    reflexivity.
  - replace (get_weight (<[g := v]> gene_weights) x) with (get_weight gene_weights x);
      [reflexivity|].
    unfold get_weight. rewrite lookup_insert_ne; [done|congruence].
Qed.

(** Changing the entry of [g] changes the substitution table at the
    symbol [g] at most. *)
Lemma subs_dict_insert gene_weights g v gen_list :
  is_identifier g = true →
  match subs_dict (new_weights_of (<[g := v]> gene_weights) gen_list),
        subs_dict (new_weights_of gene_weights gen_list) with
  | Some d', Some d => ∀ k, k ≠ g → d' !! k = d !! k
  | None, None => True
  | _, _ => False
  end.
Proof.
  intros Hid. induction gen_list as [|x l IH]; [done|].
  change (new_weights_of ?gw (x :: l))
    with ((x, flipped (get_weight gw x)) :: new_weights_of gw l).
  cbn [subs_dict].
  destruct (key_symbol x) as [s|] eqn:Hx; cbn [mbind option_bind]; [|done].
  destruct (subs_dict (new_weights_of (<[g := v]> gene_weights) l)) as [d'|],
           (subs_dict (new_weights_of gene_weights l)) as [d|]; try done.
  cbn [mbind option_bind]. intros k Hk.
  destruct (decide (s = k)) as [->|Hsk].
  - rewrite !lookup_insert_eq. do 2 f_equal.
    unfold get_weight. rewrite lookup_insert_ne; [done|].
    intros <-. rewrite (key_symbol_identifier _ Hid) in Hx.
    destruct (is_constant g); congruence.
  - rewrite !lookup_insert_ne by done. by apply IH.
Qed.

End Corrupted.

(** C10, as amended.  The operator substitution rewrites [or] and
    [and] wherever the letters stand, so a gene identifier [g] that
    holds one of them is not in the text handed to the parser; no leaf
    of the tree carries its name, the value looked up for it is
    substituted nowhere, and replacing a non-negative entry of [g] in
    the table by another non-negative value changes no reaction
    weight. *)
Theorem corrupted_identifier_unused g :
  is_identifier g = true →
  occurs "or" g || occurs "and" g = true →
  (∀ expr_split, occurs g (expression_of expr_split) = false)
  ∧ (∀ expr_split tree tree' (d : gmap string Q) v,
       Parser.sympify (expression_of expr_split) = Some tree →
       replace_MulMax_AddMin tree = Some tree' →
       subs (<[g := v]> d) tree' = subs d tree')
  ∧ (∀ gene_weights modelname rxn v,
       (0 <= get_weight gene_weights g)%Q → (0 <= v)%Q →
       reaction_weight (<[g := v]> gene_weights) modelname rxn
       = reaction_weight gene_weights modelname rxn).
Proof.
  intros Hid Hg. split; [|split].
  - intros es. by apply corrupted_identifier_absent.
  - intros es tree tree' d v Hparse Hrepl. apply subs_agree. intros s Hs.
    apply lookup_insert_ne. intros <-.
    by apply (tree_free_of_corrupted _ _ _ _ Hg Hparse Hrepl).
  - intros gw mn rxn v Hold Hnew. unfold reaction_weight.
    destruct (0 <? length (genes rxn))%nat; [|done].
    destruct (prepare_expr_split_gen_list rxn mn) as [log [e|[[es|] [gl|]]]];
      io_step; try done.
    unfold expression_of.
    destruct (Parser.sympify _) as [tree|] eqn:Hparse; io_step; [|done].
    destruct (replace_MulMax_AddMin tree) as [tree'|] eqn:Hrepl; io_step; [|done].
    rewrite (negweights_insert_nonnegative _ _ _ _ Hold Hnew).
    pose proof (subs_dict_insert gw g v gl Hid) as Hdict.
    destruct (subs_dict (new_weights_of (<[g := v]> gw) gl)) as [d'|],
             (subs_dict (new_weights_of gw gl)) as [d|]; io_step; try done.
    rewrite (subs_agree d' d tree'); [done|]. intros s Hs. apply Hdict. intros ->.
    by apply (tree_free_of_corrupted _ _ _ _ Hg Hparse Hrepl).
Qed.

(** ** Instances *)








(** A gene that occurs twice is collected by the parser: [A and A]
    is read as [2*A] and weighs the maximum of [2] and the weight. *)
Example repeated_gene_collected :
  Parser.sympify (expression_of ["A"; "and"; "A"]) = Some (Mul [Number 2; Symbol "A"])
  ∧ reaction_weight (table [("A", 1%Q)]) "human1"
      {| rid := "R"; gene_reaction_rule := "A and A"; genes := ["A"] |}
    = ([], inr (Number 2)).
Proof. split; vm_compute; reflexivity. Qed.

Lemma sorD_identifier : is_identifier "sorD" = true.
Proof. reflexivity. Qed.

Lemma corrupted_identifier_unused_witness :
  occurs "sorD" (expression_of ["sorD"; "or"; "B"]) = false
  ∧ expression_of ["sorD"; "or"; "B"] = "s*D * B"
  ∧ ∀ v, (0 <= v)%Q →
         reaction_weight (<["sorD" := v]> positive_pair) "human1"
           {| rid := "R"; gene_reaction_rule := "sorD or B"; genes := ["sorD"; "B"] |}
         = ([], inr (Max [Symbol "s"; Symbol "D"; Number 5])).
Proof.
  destruct (corrupted_identifier_unused "sorD" sorD_identifier eq_refl)
    as (Habsent & _ & Hweight).
  split; [apply Habsent|]. split; [reflexivity|].
  intros v Hv. rewrite Hweight; [reflexivity | by vm_compute | exact Hv].
Defined.

(** The entry of a corrupted identifier still reaches the weight
    through the list of flipped magnitudes: with [A: 1] and [B: 2] the
    rule [AorB and A and B] weighs [1] when [AorB] has the entry [0]
    and [-1 - 1e-15] when it has the entry [-(1 + 1e-15)]. *)
Lemma corrupted_identifier_entry_matters :
  expression_of ["AorB"; "and"; "A"; "and"; "B"] = "A*B + A + B"
  ∧ reaction_weight (table [("A", 1%Q); ("B", 2%Q); ("AorB", 0%Q)]) "human1"
      corrupted_reaction
    = ([], inr (Number 1))
  ∧ reaction_weight (table [("A", 1%Q); ("B", 2%Q); ("AorB", (- (1 + eps))%Q)]) "human1"
      corrupted_reaction
    = ([], inr (Number (- 1 - eps))).
Proof. repeat split; vm_compute; reflexivity. Qed.

(** * Further properties *)

Import Observations.

(** ** [apply_gpr] as a whole *)

Section ApplyGpr.

Lemma io_bind_log {A B} (m : io A) (k : A → io B) :
  (io_bind m k).1
  = m.1 ++ match m.2 with inr a => (k a).1 | inl _ => [] end.
Proof.
  destruct m as [log [e|a]]; cbn; [by rewrite app_nil_r|]. by destruct (k a).
Qed.

Lemma io_bind_result {A B} (m : io A) (k : A → io B) :
  (io_bind m k).2 = match m.2 with inr a => (k a).2 | inl e => inl e end.
Proof. destruct m as [log [e|a]]; cbn; [done|]. by destruct (k a). Qed.

Lemma prepare_saves_nothing rxn modelname :
  saved_tables (prepare_expr_split_gen_list rxn modelname).1 = [].
Proof.
  unfold prepare_expr_split_gen_list.
  repeat (destruct (String.eqb modelname _); [done|]). done.
Qed.

Lemma reaction_weight_saves_nothing gene_weights modelname rxn :
  saved_tables (reaction_weight gene_weights modelname rxn).1 = [].
Proof.
  unfold reaction_weight. destruct (0 <? length (genes rxn))%nat; [|done].
  rewrite io_bind_log. unfold saved_tables. rewrite omap_app.
  fold (saved_tables (prepare_expr_split_gen_list rxn modelname).1).
  rewrite prepare_saves_nothing. cbn [app].
  destruct (prepare_expr_split_gen_list rxn modelname) as [log [e|[es gl]]]; [done|].
  cbn [snd]. destruct gl as [gl|]; [|done]. io_step.
  destruct es as [es|]; [|done]. io_step.
  destruct (Parser.sympify _) as [tree|]; [|done]. io_step.
  destruct (replace_MulMax_AddMin tree) as [tree'|]; [|done]. io_step.
  destruct (subs_dict _) as [d|]; [|done]. io_step.
  by destruct (subs d tree').
Qed.

Lemma apply_gpr_loop_saves_nothing gene_weights modelname reactions :
  ∀ acc, saved_tables (apply_gpr_loop gene_weights modelname reactions acc).1 = [].
Proof.
  induction reactions as [|r rest IH]; intros acc; [done|].
  cbn [apply_gpr_loop]. rewrite io_bind_log. unfold saved_tables. rewrite omap_app.
  fold (saved_tables (reaction_weight gene_weights modelname r).1).
  rewrite reaction_weight_saves_nothing. cbn [app].
  destruct (reaction_weight gene_weights modelname r).2 as [e|w]; [done|]. apply IH.
Qed.

Lemma apply_gpr_loop_dom gene_weights modelname reactions :
  ∀ acc log rw,
    apply_gpr_loop gene_weights modelname reactions acc = (log, inr rw) →
    dom rw = dom acc ∪ list_to_set (map rid reactions).
Proof.
  induction reactions as [|r rest IH]; intros acc log rw Hrun.
  - injection Hrun as _ <-. cbn. set_solver.
  - cbn [apply_gpr_loop] in Hrun.
    apply io_bind_inr in Hrun as (l1 & w & l2 & _ & Hrest & _).
    rewrite (IH _ _ _ Hrest), dom_insert_L. cbn [map list_to_set]. set_solver.
Qed.

End ApplyGpr.

(** X1.  The table [apply_gpr] returns has one entry for every
    reaction of the model and no other entry. *)
Theorem apply_gpr_one_entry_per_reaction model gene_weights modelname save filename
    log reaction_weights :
  apply_gpr model gene_weights modelname save filename = (log, inr reaction_weights) →
  dom reaction_weights = list_to_set (map rid model).
Proof.
  intros Hrun. unfold apply_gpr in Hrun.
  apply io_bind_inr in Hrun as (l1 & rw' & l2 & Hloop & Hrest & _).
  assert (rw' = reaction_weights) as ->.
  { destruct save; cbn in Hrest; by injection Hrest as _ ->. }
  rewrite (apply_gpr_loop_dom _ _ _ _ _ _ Hloop). set_solver.
Qed.

Lemma apply_gpr_one_entry_per_reaction_witness :
  match (apply_gpr [and_reaction; no_gene_reaction; or_reaction]
                   positive_pair "human1" true "w").2 with
  | inr reaction_weights =>
      dom reaction_weights = list_to_set ["R_and"; "EX_glc"; "R_or"]
  | inl _ => False
  end.
Proof.
  destruct (apply_gpr [and_reaction; no_gene_reaction; or_reaction]
                      positive_pair "human1" true "w") as [log [e|rw]] eqn:Hrun.
  - vm_compute in Hrun. discriminate Hrun.
  - cbn [snd]. exact (apply_gpr_one_entry_per_reaction _ _ _ _ _ _ _ Hrun).
Defined.

(** X2.  [apply_gpr] hands a table to [save_reaction_weights] exactly
    when it is asked to save and every reaction was evaluated: then
    once, the table it returns, under [filename + ".csv"].  A run that
    raises saves nothing. *)
Theorem apply_gpr_saves_what_it_returns model gene_weights modelname save filename :
  saved_tables (apply_gpr model gene_weights modelname save filename).1
  = match (apply_gpr model gene_weights modelname save filename).2 with
    | inr reaction_weights =>
        if save then [(reaction_weights, filename +:+ ".csv")] else []
    | inl _ => []
    end.
Proof.
  unfold apply_gpr. rewrite io_bind_log, io_bind_result.
  unfold saved_tables at 1. rewrite omap_app.
  fold (saved_tables (apply_gpr_loop gene_weights modelname model ∅).1).
  rewrite apply_gpr_loop_saves_nothing. cbn [app].
  destruct (apply_gpr_loop gene_weights modelname model ∅).2 as [e|rw]; [done|].
  by destruct save.
Qed.

(** ** Conflicting scores and the whole script *)

Section ConflictingAbsent.
Import Main.



End ConflictingAbsent.



(** ** The discretizer in general *)

Section Discretizer.
Import Discretize Ranks.

Lemma cell_set_cell j v row :
  (j < length row.2)%nat → cell j (set_cell j v row) = v.
Proof.
  intros Hj. unfold cell, set_cell. cbn [snd].
  by rewrite nth_lookup, list_lookup_insert_eq.
Qed.

Lemma cell_set_cell_ne j k v row : k ≠ j → cell k (set_cell j v row) = cell k row.
Proof.
  intros Hne. unfold cell, set_cell. cbn [snd].
  by rewrite !nth_lookup, list_lookup_insert_ne.
Qed.

Lemma set_cell_twice j v w row : set_cell j v (set_cell j w row) = set_cell j v row.
Proof. unfold set_cell. cbn [fst snd]. by rewrite list_insert_insert_eq. Qed.

Lemma slice_bound_range len b : 0 <= len → 0 <= slice_bound len b <= len.
Proof. unfold slice_bound. lia. Qed.

(** The three assignments of lines 55 to 57 as one pass over the rows. *)
Lemma three_slices j low high rws :
  assign_slice j (Some high) None 1%Q
    (assign_slice j (Some low) (Some high) 0%Q
       (assign_slice j None (Some low) (-1)%Q rws))
  = imap (fun i row =>
            set_cell j (label_at (slice_bound (Z.of_nat (length rws)) low)
                                 (slice_bound (Z.of_nat (length rws)) high) i) row)
         rws.
Proof.
  unfold assign_slice. rewrite !length_imap. cbn [default].
  remember (Z.of_nat (length rws)) as n eqn:Hn.
  pose proof (slice_bound_range n low ltac:(lia)) as HL.
  pose proof (slice_bound_range n high ltac:(lia)) as HH.
  assert (slice_bound n 0 = 0) as ->.
  { unfold slice_bound. change (0 <? 0) with false. lia. }
  assert (slice_bound n n = n) as ->.
  { unfold slice_bound. destruct (Z.ltb_spec n 0); lia. }
  apply list_eq. intros i. rewrite !list_lookup_imap.
  destruct (rws !! i) as [row|] eqn:Hi; [|done]. cbn [fmap option_fmap option_map].
  apply lookup_lt_Some in Hi. f_equal. unfold label_at.
  repeat match goal with
         | |- context [?a <=? ?b] => destruct (Z.leb_spec a b)
         | |- context [?a <? ?b] => destruct (Z.ltb_spec a b)
         end; cbn [andb]; rewrite ?set_cell_twice; try done; unfold id in *; lia.
Qed.

(** Rows that have a cell in column [j]. *)
Lemma wide_set_cell j k v row :
  (k < length row.2)%nat → (k < length (set_cell j v row).2)%nat.
Proof. unfold set_cell. cbn [snd]. by rewrite length_insert. Qed.

Lemma insert_row_perm j r l : insert_row j r l ≡ₚ r :: l.
Proof.
  induction l as [|r' l IH]; [done|]. cbn [insert_row].
  destruct (Qle_bool _ _); [|done]. rewrite IH. apply Permutation_swap.
Qed.

Lemma sort_values_perm j rws : sort_values j rws ≡ₚ rws.
Proof.
  unfold sort_values.
  assert (∀ acc, foldl (fun acc r => insert_row j r acc) acc rws ≡ₚ acc ++ rws) as H.
  { induction rws as [|r rws IH]; intros acc; cbn [foldl]; [by rewrite app_nil_r|].
    rewrite IH, insert_row_perm. cbn [app]. apply Permutation_middle. }
  apply (H []).
Qed.

(** What [resolve] does to the rows: same labels in the same places,
    changes in column [j] only. *)
Lemma resolve_rows {B} (g : string * list Q → B) f j rws :
  (∀ v row, g (set_cell j v row) = g row) →
  map g (resolve f j rws) = map g rws.
Proof.
  intros Hg. unfold resolve. generalize (remove_dups (map fst rws)). intros labels.
  revert rws. induction labels as [|x labels IH]; intros rws; cbn [foldl]; [done|].
  rewrite IH, map_map. apply map_ext. intros row.
  destruct (decide (row.1 = x)); [apply Hg|done].
Qed.

Lemma imap_rows {B} (g : string * list Q → B) j (label : nat → Q) rws :
  (∀ v row, g (set_cell j v row) = g row) →
  map g (imap (fun i row => set_cell j (label i) row) rws) = map g rws.
Proof.
  intros Hg. revert label. induction rws as [|r rws IH]; intros label; [done|].
  rewrite imap_cons. cbn [map]. rewrite Hg. f_equal. apply (IH (label ∘ S)).
Qed.

(** One column discretized: what is kept of the other data. *)
Lemma discretize_column_keeps {B} (g : string * list Q → B) cutoff method j rws :
  (∀ v row, g (set_cell j v row) = g row) →
  map g (discretize_column cutoff method j rws) ≡ₚ map g rws.
Proof.
  intros Hg. unfold discretize_column. rewrite three_slices, imap_rows by done.
  rewrite sort_values_perm.
  destruct (String.eqb method "max"); [by rewrite resolve_rows|].
  destruct (String.eqb method "mean"); [by rewrite resolve_rows|done].
Qed.


Lemma discretize_column_wide cutoff method j k rws row :
  (∀ r, r ∈ rws → (k < length r.2)%nat) →
  row ∈ discretize_column cutoff method j rws → (k < length row.2)%nat.
Proof.
  intros Hwide Hrow.
  pose proof (discretize_column_keeps (fun r => length r.2) cutoff method j rws) as H.
  assert (length row.2 ∈ map (fun r => length r.2) rws) as Hin.
  { rewrite <- H; [|intros v r; unfold set_cell; cbn [snd]; by rewrite length_insert].
    apply list_elem_of_fmap. eauto. }
  apply list_elem_of_fmap in Hin as (r & -> & Hr). by apply Hwide.
Qed.

Lemma label_at_mono low high i k :
  (i ≤ k)%nat → (label_at low high i <= label_at low high k)%Q.
Proof.
  intros Hik. unfold label_at.
  repeat match goal with
         | |- context [?a <=? ?b] => destruct (Z.leb_spec a b)
         | |- context [?a <? ?b] => destruct (Z.ltb_spec a b)
         end; try (unfold Qle; cbn; lia); lia.
Qed.

Lemma insert_row_sorted j r l :
  StronglySorted (fun a b => (cell j a <= cell j b)%Q) l →
  StronglySorted (fun a b => (cell j a <= cell j b)%Q) (insert_row j r l).
Proof.
  induction 1 as [|r' l Hsorted IH Hall]; cbn [insert_row].
  - by repeat constructor.
  - destruct (Qle_bool (cell j r') (cell j r)) eqn:Hle.
    + apply Qle_bool_iff in Hle. constructor; [done|].
      apply Forall_forall. intros x Hx. rewrite insert_row_perm in Hx.
      apply elem_of_cons in Hx as [->|Hx]; [done|].
      rewrite Forall_forall in Hall. by apply Hall.
    + assert (cell j r < cell j r')%Q as Hlt.
      { apply Qnot_le_lt. intros H. apply Qle_bool_iff in H. congruence. }
      constructor; [by constructor|]. constructor; [by apply Qlt_le_weak|].
      eapply Forall_impl; [exact Hall|]. intros x Hx. cbn beta in *.
      apply Qlt_le_weak in Hlt. by apply (Qle_trans _ _ _ Hlt).
Qed.

Lemma sort_values_sorted j rws :
  StronglySorted (fun a b => (cell j a <= cell j b)%Q) (sort_values j rws).
Proof.
  unfold sort_values.
  assert (∀ acc, StronglySorted (fun a b => (cell j a <= cell j b)%Q) acc →
                 StronglySorted (fun a b => (cell j a <= cell j b)%Q)
                   (foldl (fun acc r => insert_row j r acc) acc rws)) as H.
  { induction rws as [|r rws IH]; intros acc Hacc; cbn [foldl]; [done|].
    by apply IH, insert_row_sorted. }
  apply H. constructor.
Qed.

Lemma sorted_lookup {A} (R : relation A) (l : list A) :
  StronglySorted R l →
  ∀ i k x y, (i < k)%nat → l !! i = Some x → l !! k = Some y → R x y.
Proof.
  induction 1 as [|a l _ IH Hall]; intros i k x y Hik Hi Hk; [done|].
  destruct k as [|k]; [lia|]. cbn in Hk. destruct i as [|i].
  - injection Hi as <-. rewrite Forall_forall in Hall. apply Hall.
    by eapply list_elem_of_lookup_2.
  - cbn in Hi. apply (IH i k); [lia|done|done].
Qed.

Lemma same_label_same_row (rws : list (string * list Q)) x y :
  NoDup (map fst rws) → x ∈ rws → y ∈ rws → x.1 = y.1 → x = y.
Proof.
  intros Hnd Hx Hy Heq.
  apply list_elem_of_lookup in Hx as [i Hi]. apply list_elem_of_lookup in Hy as [k Hk].
  assert (i = k) as ->.
  { apply (NoDup_lookup _ _ _ x.1 Hnd); rewrite list_lookup_fmap.
    - by rewrite Hi.
    - rewrite Hk. cbn. by rewrite Heq. }
  congruence.
Qed.

End Discretizer.



(** X6.  With a percentage other than zero and column positions inside
    the table [expression2qualitative] returns; it writes the table it
    returns, once, when asked to save and nothing otherwise; the table
    has the same columns and the same genes, and every column that was
    not selected holds, gene by gene, the values it held. *)
Theorem expression2qualitative_keeps df column_idx percentage method save outpath :
  Qeq_bool (percentage / 100) 0 = false →
  (∀ j, j ∈ Discretize.positions column_idx → (j < length (columns df))%nat) →
  ∃ df',
    Discretize.expression2qualitative df column_idx percentage method save outpath
    = ((if save then [ToCsv df' (outpath +:+ ".csv")] else []), inr df')
    ∧ columns df' = columns df
    ∧ map fst (rows df') ≡ₚ map fst (rows df)
    ∧ ∀ k, k ∉ Discretize.positions column_idx →
           map (fun r => (r.1, Discretize.cell k r)) (rows df')
           ≡ₚ map (fun r => (r.1, Discretize.cell k r)) (rows df).
Proof.
  intros Hpct Hpos. unfold Discretize.expression2qualitative. rewrite Hpct.
  assert (forallb (fun j => (j <? length (columns df))%nat) (Discretize.positions column_idx)
          = true) as ->.
  { apply forallb_forall. intros j Hj%list_elem_of_In. by apply Nat.ltb_lt, Hpos. }
  eexists. split; [by destruct save|]. cbn [columns rows]. split; [done|].
  generalize (Discretize.positions column_idx). intros l. generalize (rows df). clear.
  induction l as [|j l IH]; intros rws; cbn [foldl]; [done|].
  destruct (IH (Discretize.discretize_column (1 / (percentage / 100)) method j rws))
    as [Hlabels Hcells].
  split.
  - rewrite Hlabels. by apply discretize_column_keeps.
  - intros k Hk. apply not_elem_of_cons in Hk as [Hkj Hk]. rewrite (Hcells _ Hk).
    apply discretize_column_keeps. intros v row. cbn [fst].
    by rewrite cell_set_cell_ne.
Qed.

Lemma expression2qualitative_keeps_witness :
  ∃ df',
    Discretize.expression2qualitative one_to_ten (Discretize.IdxList [0%nat]) 25 "max" true "out"
    = ([ToCsv df' "out.csv"], inr df')
    ∧ columns df' = ["expression"]
    ∧ map fst (rows df') ≡ₚ map fst (rows one_to_ten).
Proof.
  destruct (expression2qualitative_keeps one_to_ten (Discretize.IdxList [0%nat]) 25 "max"
              true "out") as (df' & Hrun & Hcols & Hlabels & _).
  - reflexivity.
  - intros j Hj. apply list_elem_of_singleton in Hj as ->. cbn. lia.
  - exists df'. auto.
Defined.

(** X7.  Labels follow the values.  When the genes of the table are
    pairwise distinct and duplicates are left as they are (the default
    method), a gene with a smaller value in the column never gets a
    larger label than a gene with a greater value. *)
Theorem discretize_column_monotone cutoff method j rws a b a' b' :
  String.eqb method "max" = false → String.eqb method "mean" = false →
  NoDup (map fst rws) → (∀ r, r ∈ rws → (j < length r.2)%nat) →
  a ∈ rws → b ∈ rws → (Discretize.cell j a < Discretize.cell j b)%Q →
  a' ∈ Discretize.discretize_column cutoff method j rws →
  b' ∈ Discretize.discretize_column cutoff method j rws →
  a'.1 = a.1 → b'.1 = b.1 →
  (Discretize.cell j a' <= Discretize.cell j b')%Q.
Proof.
  intros Hmax Hmean Hnd Hwide Ha Hb Hlt Ha' Hb' Hla Hlb.
  pose proof (discretize_column_wide cutoff method j j rws a' Hwide Ha') as Hja.
  pose proof (discretize_column_wide cutoff method j j rws b' Hwide Hb') as Hjb.
  unfold Discretize.discretize_column in Ha', Hb'. rewrite Hmax, Hmean in Ha', Hb'.
  rewrite three_slices in Ha', Hb'.
  apply elem_of_lookup_imap in Ha' as (ia & ra & -> & Hia).
  apply elem_of_lookup_imap in Hb' as (ib & rb & -> & Hib).
  assert (ra = a) as ->.
  { apply (same_label_same_row rws); [done| |done|done].
    rewrite <- (sort_values_perm j rws). by eapply list_elem_of_lookup_2. }
  assert (rb = b) as ->.
  { apply (same_label_same_row rws); [done| |done|done].
    rewrite <- (sort_values_perm j rws). by eapply list_elem_of_lookup_2. }
  unfold Discretize.set_cell in Hja, Hjb. cbn [snd] in Hja, Hjb.
  rewrite length_insert in Hja, Hjb. rewrite !cell_set_cell by done.
  destruct (decide (ia ≤ ib)%nat) as [Hle|Hgt]; [by apply label_at_mono|].
  exfalso. apply (Qlt_not_le _ _ Hlt).
  apply (sorted_lookup _ _ (sort_values_sorted j rws) ib ia); [lia|done|done].
Qed.

Lemma discretize_column_monotone_witness :
  (Discretize.cell 0 ("g2", [(-1)%Q]) <= Discretize.cell 0 ("g9", [1%Q]))%Q.
Proof.
  apply (discretize_column_monotone 4 "keep" 0 (rows one_to_ten)
           ("g2", [2%Q]) ("g9", [9%Q]) ("g2", [(-1)%Q]) ("g9", [1%Q]));
    try reflexivity.
  - cbn. repeat (constructor; [set_solver|]). constructor.
  - intros r Hr. cbn [rows one_to_ten] in Hr.
    repeat (apply elem_of_cons in Hr as [->|Hr]; [cbn; lia|]).
    by apply elem_of_nil in Hr.
  - cbn. set_solver.
  - cbn. set_solver.
  - vm_compute. set_solver.
  - vm_compute. set_solver.
Defined.

(** ** Which entries of the table a reaction reads *)

Section Frame.

Lemma new_weights_of_ext_in gw gw' gen_list :
  (∀ g, g ∈ gen_list → get_weight gw' g = get_weight gw g) →
  new_weights_of gw' gen_list = new_weights_of gw gen_list.
Proof.
  intros Hext. unfold new_weights_of. apply map_ext_in.
  intros g Hg%list_elem_of_In. by rewrite Hext.
Qed.

Lemma negweights_of_ext_in gw gw' gen_list :
  (∀ g, g ∈ gen_list → get_weight gw' g = get_weight gw g) →
  negweights_of gw' gen_list = negweights_of gw gen_list.
Proof.
  intros Hext. unfold negweights_of.
  induction gen_list as [|g l IH]; [done|]. cbn [omap list_omap].
  rewrite (Hext g) by left. rewrite IH; [done|].
  intros x Hx. apply Hext. by right.
Qed.

Lemma human1_gen_list rxn :
  prepare_expr_split_gen_list rxn "human1"
  = ([], inr (Some (spaced_split (gene_reaction_rule rxn)), Some (remove_dups (genes rxn)))).
Proof. reflexivity. Qed.

End Frame.

(** X3.  A reaction reads the table only at the genes the tokenizer
    lists for it: two tables that give these genes the same weights
    give the reaction the same weight.  Under [human1] the genes are
    those cobrapy associates with the reaction, so the entry of any
    other gene can be changed, added or removed freely. *)
Theorem reaction_weight_reads_its_genes gw gw' modelname rxn :
  (∀ log expr_split gen_list g,
     prepare_expr_split_gen_list rxn modelname = (log, inr (expr_split, Some gen_list)) →
     g ∈ gen_list → get_weight gw' g = get_weight gw g) →
  reaction_weight gw' modelname rxn = reaction_weight gw modelname rxn.
Proof.
  intros Hsame. unfold reaction_weight.
  destruct (0 <? length (genes rxn))%nat; [|done].
  destruct (prepare_expr_split_gen_list rxn modelname) as [log [e|[es [gl|]]]] eqn:Hprep;
    try done.
  io_step. rewrite (new_weights_of_ext_in gw gw' gl), (negweights_of_ext_in gw gw' gl);
    [done| |]; intros g Hg; by eapply Hsame.
Qed.

Lemma reaction_weight_reads_its_genes_witness :
  reaction_weight (<["C" := (-9)%Q]> positive_pair) "human1" and_reaction
  = reaction_weight positive_pair "human1" and_reaction.
Proof.
  apply (reaction_weight_reads_its_genes positive_pair).
  intros log es gl g Hprep Hg. rewrite human1_gen_list in Hprep.
  injection Hprep as _ _ <-.
  unfold get_weight. rewrite lookup_insert_ne; [done|].
  intros <-. revert Hg. vm_compute. intros Hg.
  repeat (apply elem_of_cons in Hg as [Hg|Hg]; [discriminate Hg|]).
  by apply elem_of_nil in Hg.
Defined.

(** ** Shapes kept by the canonical constructors *)

Section ProperTrees.
Import Shapes.

Lemma proper_args (mk : list expr → expr) l :
  (∀ l', proper (mk l') = (2 <=? length l')%nat && forallb proper l') →
  proper (mk l) = true ↔ (2 ≤ length l)%nat ∧ Forall (fun e => proper e = true) l.
Proof.
  intros ->. rewrite andb_true_iff, Nat.leb_le, forallb_forall, Forall_forall.
  split; intros [H1 H2]; (split; [done|]); intros x Hx; apply H2; by apply list_elem_of_In.
Qed.

Lemma proper_Add l :
  proper (Add l) = true ↔ (2 ≤ length l)%nat ∧ Forall (fun e => proper e = true) l.
Proof. by apply (proper_args Add). Qed.

Lemma proper_Mul l :
  proper (Mul l) = true ↔ (2 ≤ length l)%nat ∧ Forall (fun e => proper e = true) l.
Proof. by apply (proper_args Mul). Qed.

Lemma proper_Max l :
  proper (Max l) = true ↔ (2 ≤ length l)%nat ∧ Forall (fun e => proper e = true) l.
Proof. by apply (proper_args Max). Qed.

Lemma proper_Min l :
  proper (Min l) = true ↔ (2 ≤ length l)%nat ∧ Forall (fun e => proper e = true) l.
Proof. by apply (proper_args Min). Qed.

Lemma proper_Pow b x :
  proper (Pow b x) = true ↔ proper b = true ∧ ∃ n, x = Number n ∧ integral n = true.
Proof.
  cbn [proper]. rewrite andb_true_iff. split; intros [Hb Hx]; (split; [done|]).
  - destruct x; try done. by eexists.
  - by destruct Hx as (n & -> & Hn).
Qed.

Lemma integral_spec q : integral q = true ↔ ∃ z, (q == inject_Z z)%Q.
Proof.
  unfold integral. rewrite Qeq_bool_iff. split.
  - intros H. exists (Qfloor q). by symmetry.
  - intros [z Hz]. rewrite Hz at 1. by rewrite Qfloor_Z.
Qed.

Lemma integral_add p q : integral p = true → integral q = true → integral (p + q) = true.
Proof.
  rewrite !integral_spec. intros [a Ha] [b Hb]. exists (a + b).
  by rewrite Ha, Hb, inject_Z_plus.
Qed.

Lemma proper_of_factors l :
  l ≠ [] → Forall (fun e => proper e = true) l → proper (of_factors l) = true.
Proof.
  intros Hne Hall. destruct l as [|x [|y l]]; [done| |].
  - by inversion Hall.
  - apply proper_Mul. split; [cbn; lia|done].
Qed.

Lemma proper_as_coef_term e : proper e = true → proper (as_coef_term e).2 = true.
Proof.
  intros He. destruct e as [s|q|l|l|b x|l|l]; try done.
  destruct l as [|[s|q|l'|l'|b x|l'|l'] l]; try done.
  cbn [as_coef_term snd]. apply proper_Mul in He as [Hlen Hall].
  apply proper_of_factors; [by destruct l; [cbn in Hlen; lia|]|by inversion Hall].
Qed.

Lemma proper_dict_add_term d t c :
  proper_keys d → proper t = true → proper_keys (dict_add_term d t c).
Proof.
  unfold proper_keys. intros Hd Ht.
  induction Hd as [|[t' c'] d Htc Hd IH]; cbn [dict_add_term].
  - by repeat constructor.
  - destruct (expr_eqb t t').
    + destruct (Qeq_bool (c' + c) 0); [done|by constructor].
    + by constructor.
Qed.

Lemma proper_add_operand acc e :
  proper_keys acc.2 → proper e = true → proper_keys (add_operand acc e).2.
Proof.
  intros Hacc He. pose proof (proper_as_coef_term e He) as Hct.
  unfold add_operand. destruct (as_coef_term e) as [c t]. cbn [snd] in Hct.
  destruct e; cbn [snd]; try by apply proper_dict_add_term. done.
Qed.

Lemma whole_dict_add_term d b n :
  whole_entries d → proper b = true → integral n = true →
  whole_entries (dict_add_term d b n).
Proof.
  unfold whole_entries. intros Hd Hb Hn.
  induction Hd as [|[b' n'] d [Hb' Hn'] Hd IH]; cbn [dict_add_term].
  - by repeat constructor.
  - destruct (expr_eqb b b').
    + destruct (Qeq_bool (n' + n) 0); [done|]. constructor; [|done].
      split; [done|by apply integral_add].
    + by constructor.
Qed.

Lemma proper_mul_operand acc e :
  whole_entries acc.2 → proper e = true → whole_entries (mul_operand acc e).2.
Proof.
  intros Hacc He.
  destruct e as [s|q|l|l|b x|l|l]; cbn [mul_operand snd];
    try by apply whole_dict_add_term.
  - done.
  - apply proper_Pow in He as (Hb & n & -> & Hn). by apply whole_dict_add_term.
Qed.

Lemma proper_foldl (keys : list (expr * Q) → Prop)
    (operand : Q * list (expr * Q) → expr → Q * list (expr * Q)) :
  (∀ acc e, keys acc.2 → proper e = true → keys (operand acc e).2) →
  ∀ l acc, keys acc.2 → Forall (fun e => proper e = true) l →
           keys (foldl operand acc l).2.
Proof.
  intros Hop. induction l as [|e l IH]; intros acc Hacc Hl; cbn [foldl]; [done|].
  inversion Hl; subst. apply IH; [by apply Hop|done].
Qed.

Lemma proper_add_operands acc e :
  proper_keys acc.2 → proper e = true → proper_keys (add_operands acc e).2.
Proof.
  intros Hacc He. destruct e as [s|q|l|l|b x|l|l]; try by apply proper_add_operand.
  apply proper_Add in He as [_ Hall].
  by apply (proper_foldl proper_keys add_operand proper_add_operand).
Qed.

Lemma proper_mul_operands acc e :
  whole_entries acc.2 → proper e = true → whole_entries (mul_operands acc e).2.
Proof.
  intros Hacc He. destruct e as [s|q|l|l|b x|l|l]; try by apply proper_mul_operand.
  apply proper_Mul in He as [_ Hall].
  by apply (proper_foldl whole_entries mul_operand proper_mul_operand).
Qed.

Lemma proper_with_coef tc : proper tc.1 = true → proper (with_coef tc) = true.
Proof.
  intros Ht. unfold with_coef. destruct (Qeq_bool tc.2 1); [done|].
  destruct tc.1 as [s|q|l|l|b x|l|l] eqn:Hk;
    try (apply proper_Mul; split; [cbn; lia|by repeat constructor]).
  apply proper_Mul in Ht as [Hlen Hall]. apply proper_Mul.
  split; [cbn; lia|by constructor].
Qed.

Lemma proper_with_exp be :
  proper be.1 = true ∧ integral be.2 = true → proper (with_exp be) = true.
Proof.
  intros [Hb Hn]. unfold with_exp. destruct (Qeq_bool be.2 1); [done|].
  apply proper_Pow. eauto.
Qed.

Lemma proper_map (P : expr * Q → Prop) (f : expr * Q → expr) d :
  (∀ tc, P tc → proper (f tc) = true) →
  Forall P d → Forall (fun e => proper e = true) (map f d).
Proof. intros Hf Hd. apply Forall_fmap. eapply Forall_impl; [exact Hd|]. apply Hf. Qed.

Lemma proper_add_from_dict coef d : proper_keys d → proper (add_from_dict coef d) = true.
Proof.
  intros Hd. pose proof (proper_map _ with_coef d proper_with_coef Hd) as Hmap.
  unfold add_from_dict. destruct d as [|tc [|tc' d]]; [done| |].
  - inversion Hmap; subst. destruct (Qeq_bool coef 0); [done|].
    apply proper_Add. split; [cbn; lia|by repeat constructor].
  - apply proper_Add. split.
    + rewrite length_app, length_map. cbn. lia.
    + apply Forall_app. split; [|done]. destruct (Qeq_bool coef 0); by repeat constructor.
Qed.

Lemma proper_mul_from_dict coef d : whole_entries d → proper (mul_from_dict coef d) = true.
Proof.
  intros Hd. pose proof (proper_map _ with_exp d proper_with_exp Hd) as Hmap.
  unfold mul_from_dict. destruct (Qeq_bool coef 0); [done|].
  destruct d as [|tc [|tc' d]]; [done| |].
  - inversion Hmap; subst. destruct (Qeq_bool coef 1); [done|].
    apply proper_Mul. split; [cbn; lia|by repeat constructor].
  - apply proper_Mul. split.
    + rewrite length_app, length_map. cbn. lia.
    + apply Forall_app. split; [|done]. destruct (Qeq_bool coef 1); by repeat constructor.
Qed.

Lemma proper_add a b : proper a = true → proper b = true → proper (add a b) = true.
Proof.
  intros Ha Hb. unfold add.
  pose proof (proper_add_operands _ b (proper_add_operands (0%Q, []) a
                ltac:(constructor) Ha) Hb) as H.
  destruct (add_operands _ b) as [coef d]. by apply proper_add_from_dict.
Qed.

Lemma proper_mul a b : proper a = true → proper b = true → proper (mul a b) = true.
Proof.
  intros Ha Hb. unfold mul.
  pose proof (proper_mul_operands _ b (proper_mul_operands (1%Q, []) a
                ltac:(constructor) Ha) Hb) as H.
  destruct (mul_operands _ b) as [coef d]. by apply proper_mul_from_dict.
Qed.

Lemma proper_pow b n :
  proper b = true → integral n = true → proper (pow b (Number n)) = true.
Proof.
  intros Hb Hn. assert (proper (Pow b (Number n)) = true) as HP by (apply proper_Pow; eauto).
  unfold pow. destruct b; try done. by destruct (Qeq_bool _ _).
Qed.

End ProperTrees.

(** ** Parsed rules are proper trees *)

Section ParsedProper.
Import Shapes Parser.

Lemma parse_proper n :
  (∀ ts e r, parse_sum n ts = Some (e, r) → proper e = true)
  ∧ (∀ acc ts e r, proper acc = true → sum_rest n acc ts = Some (e, r) → proper e = true)
  ∧ (∀ ts e r, parse_product n ts = Some (e, r) → proper e = true)
  ∧ (∀ acc ts e r, proper acc = true → product_rest n acc ts = Some (e, r) →
                   proper e = true)
  ∧ (∀ ts e r, parse_atom n ts = Some (e, r) → proper e = true).
Proof.
  induction n as [|n (IHsum & IHsrest & IHprod & IHprest & IHatom)];
    [repeat split; discriminate|].
  repeat apply conj.
  - intros ts e r. rewrite parse_sum_S.
    destruct (parse_product n ts) as [[t r0]|] eqn:Hp; [|done]. cbn [mbind option_bind].
    apply IHsrest. by eapply IHprod.
  - intros acc [|[w| | | |] ts] e r Hacc; try (by intros [= <- <-]).
    rewrite sum_rest_plus.
    destruct (parse_product n ts) as [[t r0]|] eqn:Hp; [|done]. cbn [mbind option_bind].
    apply IHsrest. apply proper_add; [done|by eapply IHprod].
  - intros ts e r. rewrite parse_product_S.
    destruct (parse_atom n ts) as [[f r0]|] eqn:Hp; [|done]. cbn [mbind option_bind].
    apply IHprest. by eapply IHatom.
  - intros acc [|[w| | | |] ts] e r Hacc; try (by intros [= <- <-]).
    rewrite product_rest_star.
    destruct (parse_atom n ts) as [[f r0]|] eqn:Hp; [|done]. cbn [mbind option_bind].
    apply IHprest. apply proper_mul; [done|by eapply IHatom].
  - intros [|[w| | | |] ts] e r; cbn [parse_atom]; try done.
    + destruct (is_constant w); [done|]. by intros [= <- <-].
    + destruct (parse_sum n ts) as [[e0 r0]|] eqn:Hp; [|done]. cbn [mbind option_bind].
      destruct r0 as [|[w| | | |] r0]; try done. intros [= <- <-]. by eapply IHsum.
Qed.

Lemma sympify_proper text tree : sympify text = Some tree → proper tree = true.
Proof.
  unfold sympify, parse. destruct (lex false text) as [ts|]; [|done].
  cbn [mbind option_bind].
  destruct (parse_sum _ ts) as [[e [|t r]]|] eqn:Hp; try done. intros [= <-].
  destruct (parse_proper (fuel_for ts)) as (Hsum & _). by eapply Hsum.
Qed.

End ParsedProper.

(** ** [Max] and [Min] of proper arguments *)

Section ProperExtrema.
Import Shapes.

Lemma insert_arg_nonempty e l : insert_arg e l ≠ [].
Proof. destruct l as [|x l]; cbn [insert_arg]; [done|]. by destruct (expr_eqb e x). Qed.

Lemma insert_arg_all (P : expr → Prop) e l :
  P e → Forall P l → Forall P (insert_arg e l).
Proof.
  intros He. induction 1 as [|x l Hx Hl IH]; cbn [insert_arg]; [by repeat constructor|].
  destruct (expr_eqb e x); by constructor.
Qed.

Lemma extremum_arg_filled pick acc e : filled (extremum_arg pick acc e).
Proof.
  destruct e; cbn [extremum_arg]; try (right; apply insert_arg_nonempty). by left.
Qed.

Lemma extremum_arg_all (P : expr → Prop) pick acc e :
  P e → Forall P acc.2 → Forall P (extremum_arg pick acc e).2.
Proof.
  intros He Hacc. destruct e; cbn [extremum_arg snd]; try by apply insert_arg_all. done.
Qed.

Lemma extremum_fold_filled pick l :
  ∀ acc, filled acc ∨ l ≠ [] → filled (foldl (extremum_arg pick) acc l).
Proof.
  induction l as [|e l IH]; intros acc Hacc; cbn [foldl]; [by destruct Hacc|].
  apply IH. left. apply extremum_arg_filled.
Qed.

Lemma extremum_fold_all (P : expr → Prop) pick l :
  Forall P l → ∀ acc, Forall P acc.2 → Forall P (foldl (extremum_arg pick) acc l).2.
Proof.
  induction 1 as [|e l He Hl IH]; intros acc Hacc; cbn [foldl]; [done|].
  by apply IH, extremum_arg_all.
Qed.

Lemma number_all (P : expr → Prop) (num : option Q) (others : list expr) :
  (∀ q, P (Number q)) → Forall P others →
  Forall P (others ++ from_option (fun q => [Number q]) [] num).
Proof.
  intros Hnum Hothers. apply Forall_app. split; [done|].
  destruct num; cbn; by repeat constructor.
Qed.

(** The arguments an extremum ends with, all in the shape [P], when
    the arguments given are and nested extrema hold such arguments. *)
Lemma extremum_all (P : expr → Prop) pick nested mk args e :
  (∀ q, P (Number q)) →
  (∀ x inner, nested x = Some inner → P x → Forall P inner) →
  (∀ l, (2 ≤ length l)%nat → Forall P l → P (mk l)) →
  Forall P args → extremum pick nested mk args = Some e → P e.
Proof.
  intros Hnum Hnested Hmk Hargs. unfold extremum.
  assert (∀ l acc, Forall P l → Forall P acc.2 →
                   Forall P (foldl (extremum_args pick nested) acc l).2) as Hfold.
  { induction l as [|x l IH]; intros acc Hl Hacc; cbn [foldl]; [done|].
    inversion Hl; subst. apply IH; [done|]. unfold extremum_args.
    destruct (nested x) as [inner|] eqn:Hn.
    - apply extremum_fold_all; [by eapply Hnested|done].
    - by apply extremum_arg_all. }
  specialize (Hfold args (None, []) Hargs ltac:(constructor)).
  destruct (foldl _ _ args) as [num others]. cbn [snd] in Hfold.
  pose proof (number_all P num others Hnum Hfold) as Hfinal.
  destruct (others ++ _) as [|x [|y final]]; [done| |].
  - intros [= <-]. by inversion Hfinal.
  - intros [= <-]. apply Hmk; [cbn; lia|done].
Qed.

(** An extremum of at least one argument is built, when nested
    extrema are not empty. *)
Lemma extremum_returns pick nested mk args :
  (∀ x inner, x ∈ args → nested x = Some inner → inner ≠ []) →
  args ≠ [] → is_Some (extremum pick nested mk args).
Proof.
  intros Hnested Hargs. unfold extremum.
  assert (∀ l acc, (∀ x inner, x ∈ l → nested x = Some inner → inner ≠ []) →
                   filled acc ∨ l ≠ [] →
                   filled (foldl (extremum_args pick nested) acc l)) as Hfold.
  { induction l as [|x l IH]; intros acc Hl Hacc; cbn [foldl]; [by destruct Hacc|].
    apply IH; [intros y inner Hy; apply Hl; by right|]. left. unfold extremum_args.
    destruct (nested x) as [inner|] eqn:Hn.
    - apply extremum_fold_filled. right. eapply Hl; [by left|done].
    - apply extremum_arg_filled. }
  specialize (Hfold args (None, []) Hnested (or_intror Hargs)).
  destruct (foldl _ _ args) as [num others].
  destruct Hfold as [Hnum|Hothers]; cbn [fst snd] in *.
  - destruct num as [q|]; [|done]. destruct others as [|x [|y others]]; by eexists.
  - destruct others as [|x others]; [done|].
    cbn [app]. destruct (others ++ _) as [|y final]; by eexists.
Qed.

Lemma proper_args_nonempty (l : list expr) : (2 ≤ length l)%nat → l ≠ [].
Proof. destruct l; cbn; [lia|done]. Qed.

Lemma mk_Max_proper args :
  args ≠ [] → Forall (fun e => proper e = true) args →
  ∃ e, mk_Max args = Some e ∧ proper e = true.
Proof.
  intros Hne Hall.
  destruct (extremum_returns Qmax args_of_Max Max args) as [e He]; [|done|].
  - intros [] inner Hx; try done. intros [= <-].
    rewrite Forall_forall in Hall. apply Hall in Hx.
    apply proper_Max in Hx as [Hlen _]. by apply proper_args_nonempty.
  - exists e. split; [done|].
    apply (extremum_all (fun e => proper e = true) Qmax args_of_Max Max args); try done.
    + intros [] inner; try done. intros [= <-] Hx. by apply proper_Max in Hx as [_ ?].
    + intros l Hlen Hl. by apply proper_Max.
Qed.

Lemma mk_Min_proper args :
  args ≠ [] → Forall (fun e => proper e = true) args →
  ∃ e, mk_Min args = Some e ∧ proper e = true.
Proof.
  intros Hne Hall.
  destruct (extremum_returns Qmin args_of_Min Min args) as [e He]; [|done|].
  - intros [] inner Hx; try done. intros [= <-].
    rewrite Forall_forall in Hall. apply Hall in Hx.
    apply proper_Min in Hx as [Hlen _]. by apply proper_args_nonempty.
  - exists e. split; [done|].
    apply (extremum_all (fun e => proper e = true) Qmin args_of_Min Min args); try done.
    + intros [] inner; try done. intros [= <-] Hx. by apply proper_Min in Hx as [_ ?].
    + intros l Hlen Hl. by apply proper_Min.
Qed.

Lemma mapM_proper (f : expr → option expr) l :
  Forall (fun e => proper e = true → ∃ e', f e = Some e' ∧ proper e' = true) l →
  Forall (fun e => proper e = true) l →
  ∃ l', mapM f l = Some l' ∧ Forall (fun e => proper e = true) l'
        ∧ length l' = length l.
Proof.
  induction 1 as [|e l He _ IH]; intros Hl; cbn [mapM]; [by exists []|].
  inversion Hl; subst. destruct (He ltac:(done)) as (e' & -> & He').
  destruct (IH ltac:(done)) as (l' & -> & Hl' & Hlen). cbn [mbind option_bind].
  exists (e' :: l'). repeat split; [by constructor|cbn; lia].
Qed.

(** The rewriting of a proper tree returns, and returns a proper tree. *)
Lemma replace_proper e :
  proper e = true → ∃ e', replace_MulMax_AddMin e = Some e' ∧ proper e' = true.
Proof.
  induction e as [s|q|l IH|l IH|b x IHb IHx|l IH|l IH] using expr_nested_ind;
    intros He; cbn [replace_MulMax_AddMin]; try by eexists.
  - apply proper_Add in He as [Hlen Hall].
    destruct (mapM_proper _ _ IH Hall) as (l' & -> & Hl' & Hlen'). cbn [mbind option_bind].
    apply mk_Min_proper; [|done]. apply proper_args_nonempty. lia.
  - apply proper_Mul in He as [Hlen Hall].
    destruct (mapM_proper _ _ IH Hall) as (l' & -> & Hl' & Hlen'). cbn [mbind option_bind].
    apply mk_Max_proper; [|done]. apply proper_args_nonempty. lia.
  - apply proper_Pow in He as (Hb & n & -> & Hn).
    destruct (IHb Hb) as (b' & -> & Hb'). cbn [mbind option_bind].
    eexists. split; [done|]. by apply proper_pow.
  - apply proper_Max in He as [Hlen Hall].
    destruct (mapM_proper _ _ IH Hall) as (l' & -> & Hl' & Hlen'). cbn [mbind option_bind].
    apply mk_Max_proper; [|done]. apply proper_args_nonempty. lia.
  - apply proper_Min in He as [Hlen Hall].
    destruct (mapM_proper _ _ IH Hall) as (l' & -> & Hl' & Hlen'). cbn [mbind option_bind].
    apply mk_Min_proper; [|done]. apply proper_args_nonempty. lia.
Qed.

Lemma foldl_proper (op : expr → expr → expr) l :
  (∀ a b, proper a = true → proper b = true → proper (op a b) = true) →
  Forall (fun e => proper e = true) l →
  ∀ acc, proper acc = true → proper (foldl op acc l) = true.
Proof.
  intros Hop. induction 1 as [|e l He _ IH]; intros acc Hacc; cbn [foldl]; [done|].
  apply IH. by apply Hop.
Qed.

(** So does the substitution of numbers for symbols. *)
Lemma subs_proper d e :
  proper e = true → ∃ e', subs d e = Some e' ∧ proper e' = true.
Proof.
  induction e as [s|q|l IH|l IH|b x IHb IHx|l IH|l IH] using expr_nested_ind;
    intros He; cbn [subs]; try by eexists.
  - eexists. split; [done|]. by destruct (d !! s).
  - apply proper_Add in He as [Hlen Hall].
    destruct (mapM_proper _ _ IH Hall) as (l' & -> & Hl' & Hlen'). cbn [fmap option_fmap option_map].
    eexists. split; [done|]. by apply foldl_proper; [apply proper_add| |].
  - apply proper_Mul in He as [Hlen Hall].
    destruct (mapM_proper _ _ IH Hall) as (l' & -> & Hl' & Hlen'). cbn [fmap option_fmap option_map].
    eexists. split; [done|]. by apply foldl_proper; [apply proper_mul| |].
  - apply proper_Pow in He as (Hb & n & -> & Hn).
    destruct (IHb Hb) as (b' & -> & Hb'). cbn [mbind option_bind].
    eexists. split; [done|]. by apply proper_pow.
  - apply proper_Max in He as [Hlen Hall].
    destruct (mapM_proper _ _ IH Hall) as (l' & -> & Hl' & Hlen'). cbn [mbind option_bind].
    apply mk_Max_proper; [|done]. apply proper_args_nonempty. lia.
  - apply proper_Min in He as [Hlen Hall].
    destruct (mapM_proper _ _ IH Hall) as (l' & -> & Hl' & Hlen'). cbn [mbind option_bind].
    apply mk_Min_proper; [|done]. apply proper_args_nonempty. lia.
Qed.

Lemma mapM_all (P : expr → Prop) (f : expr → option expr) l :
  Forall (fun e => ∀ e', f e = Some e' → P e') l →
  ∀ l', mapM f l = Some l' → Forall P l'.
Proof.
  induction 1 as [|e l He _ IH]; intros l'; cbn [mapM]; [by intros [= <-]|].
  destruct (f e) as [e'|] eqn:Hfe; [|done]. cbn [mbind option_bind].
  destruct (mapM f l) as [l0|]; [|done]. intros [= <-]. constructor; [by apply He|by apply IH].
Qed.

Lemma extrema_only_list l :
  forallb extrema_only l = true ↔ Forall (fun e => extrema_only e = true) l.
Proof.
  rewrite forallb_forall, Forall_forall.
  split; intros H x Hx; apply H; by apply list_elem_of_In.
Qed.

Lemma mk_Max_extrema args e :
  Forall (fun e => extrema_only e = true) args → mk_Max args = Some e →
  extrema_only e = true.
Proof.
  apply (extremum_all (fun e => extrema_only e = true)); [done| |].
  - intros [] inner; try done. intros [= <-] Hx. by apply extrema_only_list.
  - intros l _ Hl. by apply extrema_only_list.
Qed.

Lemma mk_Min_extrema args e :
  Forall (fun e => extrema_only e = true) args → mk_Min args = Some e →
  extrema_only e = true.
Proof.
  apply (extremum_all (fun e => extrema_only e = true)); [done| |].
  - intros [] inner; try done. intros [= <-] Hx. by apply extrema_only_list.
  - intros l _ Hl. by apply extrema_only_list.
Qed.

Lemma pow_extrema b x :
  extrema_only b = true → extrema_only x = true → extrema_only (pow b x) = true.
Proof.
  intros Hb Hx.
  assert (extrema_only (Pow b x) = true) as HP by (cbn [extrema_only]; by rewrite Hb, Hx).
  unfold pow. destruct b; try done. destruct x; try done. by destruct (Qeq_bool _ _).
Qed.

Lemma replace_extrema e :
  ∀ e', replace_MulMax_AddMin e = Some e' → extrema_only e' = true.
Proof.
  induction e as [s|q|l IH|l IH|b x IHb IHx|l IH|l IH] using expr_nested_ind;
    intros e'; cbn [replace_MulMax_AddMin]; try by intros [= <-].
  - destruct (mapM _ l) as [l'|] eqn:Hm; [|done]. cbn [mbind option_bind].
    apply mk_Min_extrema. by eapply mapM_all.
  - destruct (mapM _ l) as [l'|] eqn:Hm; [|done]. cbn [mbind option_bind].
    apply mk_Max_extrema. by eapply mapM_all.
  - destruct (replace_MulMax_AddMin b) as [b'|] eqn:Hb; [|done].
    destruct (replace_MulMax_AddMin x) as [x'|] eqn:Hx; [|done].
    cbn [mbind option_bind]. intros [= <-]. apply pow_extrema; [by apply IHb|by apply IHx].
  - destruct (mapM _ l) as [l'|] eqn:Hm; [|done]. cbn [mbind option_bind].
    apply mk_Max_extrema. by eapply mapM_all.
  - destruct (mapM _ l) as [l'|] eqn:Hm; [|done]. cbn [mbind option_bind].
    apply mk_Min_extrema. by eapply mapM_all.
Qed.

End ProperExtrema.

(** X8.  What [replace_MulMax_AddMin] returns holds no sum and no
    product, at any depth, and no symbol the expression did not
    hold. *)
Theorem replace_leaves_extrema tree tree' :
  replace_MulMax_AddMin tree = Some tree' →
  Shapes.extrema_only tree' = true ∧ symbols tree' ⊆ symbols tree.
Proof. intros Hrepl. split; [by eapply replace_extrema|by apply symbols_replace]. Qed.

Lemma replace_leaves_extrema_witness :
  Shapes.extrema_only (Min [Symbol "A"; Max [Symbol "B"; Symbol "C"; Number 2]]) = true
  ∧ symbols (Min [Symbol "A"; Max [Symbol "B"; Symbol "C"; Number 2]])
    ⊆ symbols (Add [Symbol "A"; Mul [Symbol "B"; Mul [Number 2; Symbol "C"]]]).
Proof.
  apply (replace_leaves_extrema
           (Add [Symbol "A"; Mul [Symbol "B"; Mul [Number 2; Symbol "C"]]])).
  reflexivity.
Defined.

(** X9.  A reaction whose rule [sympify] reads and whose genes are
    read as symbols is given a weight: under a model name the
    tokenizer knows nothing is printed, the rewriting to [Max] and
    [Min] and the substitution both return, and no exception is
    raised. *)
Theorem reaction_weight_returns gene_weights modelname rxn log expr_split gen_list tree d :
  prepare_expr_split_gen_list rxn modelname = (log, inr (Some expr_split, Some gen_list)) →
  Parser.sympify (expression_of expr_split) = Some tree →
  subs_dict (new_weights_of gene_weights gen_list) = Some d →
  ∃ weight, reaction_weight gene_weights modelname rxn = ([], inr weight).
Proof.
  intros Hprep Hparse Hd. unfold reaction_weight.
  destruct (0 <? length (genes rxn))%nat; [|by eexists].
  assert (log = []) as ->.
  { revert Hprep. unfold prepare_expr_split_gen_list.
    repeat (destruct (String.eqb modelname _); [by intros [= <- _ _]|]). done. }
  rewrite Hprep. io_step. fold (expression_of expr_split). rewrite Hparse. io_step.
  destruct (replace_proper tree (sympify_proper _ _ Hparse)) as (tree' & -> & Hproper).
  io_step. rewrite Hd. io_step.
  destruct (subs_proper d tree' Hproper) as (weight & -> & _). io_step. by eexists.
Qed.

Lemma reaction_weight_returns_witness :
  ∃ weight, reaction_weight negative_weights "human1" example_reaction = ([], inr weight).
Proof.
  eapply (reaction_weight_returns negative_weights "human1" example_reaction);
    [apply human1_gen_list|vm_compute; reflexivity|vm_compute; reflexivity].
Defined.

(** ** The least and the greatest of a list *)

Section ExtremeOrder.
Import Shapes.
Context (pick : Q → Q → Q) (le : Q → Q → Prop) (Hord : extremal pick le).

Lemma le_proper a a' b b' : (a == a')%Q → (b == b')%Q → le a b → le a' b'.
Proof. destruct Hord as (H & _). apply H. Qed.

Lemma le_refl a : le a a.
Proof. destruct Hord as (_ & H & _). apply H. Qed.

Lemma le_trans a b c : le a b → le b c → le a c.
Proof. destruct Hord as (_ & _ & H & _). apply H. Qed.

Lemma le_antisym a b : le a b → le b a → (a == b)%Q.
Proof. destruct Hord as (_ & _ & _ & H & _). apply H. Qed.

Lemma pick_one a b : (pick a b == a)%Q ∨ (pick a b == b)%Q.
Proof. destruct Hord as (_ & _ & _ & _ & H & _). apply H. Qed.

Lemma pick_lub a b m : le (pick a b) m ↔ le a m ∧ le b m.
Proof. destruct Hord as (_ & _ & _ & _ & _ & H). apply H. Qed.

Lemma le_eq a b : (a == b)%Q → le a b.
Proof. intros H. apply (le_proper a a a b); [done|done|apply le_refl]. Qed.

Lemma le_pick_l a b : le a (pick a b).
Proof. by apply (pick_lub a b (pick a b)), le_refl. Qed.

Lemma le_pick_r a b : le b (pick a b).
Proof. by apply (pick_lub a b (pick a b)), le_refl. Qed.

Lemma foldl_bound vs : ∀ v0 v, v ∈ v0 :: vs → le v (foldl pick v0 vs).
Proof.
  induction vs as [|a vs IH]; intros v0 v Hv; cbn [foldl].
  - apply list_elem_of_singleton in Hv as ->. apply le_refl.
  - apply elem_of_cons in Hv as [->|Hv].
    + eapply le_trans; [apply le_pick_l|]. apply IH. left.
    + apply elem_of_cons in Hv as [->|Hv].
      * eapply le_trans; [apply le_pick_r|]. apply IH. left.
      * apply IH. by right.
Qed.

Lemma foldl_attained vs : ∀ v0, ∃ v, v ∈ v0 :: vs ∧ (foldl pick v0 vs == v)%Q.
Proof.
  induction vs as [|a vs IH]; intros v0; cbn [foldl].
  - exists v0. split; [left|done].
  - destruct (IH (pick v0 a)) as (v & Hv & Heq).
    apply elem_of_cons in Hv as [->|Hv].
    + destruct (pick_one v0 a) as [H|H].
      * exists v0. split; [left|by rewrite Heq].
      * exists a. split; [right; left|by rewrite Heq].
    + exists v. split; [by do 2 right|done].
Qed.

Lemma cofinal_same X Y : (∀ x, x ∈ X ↔ x ∈ Y) → cofinal le X Y.
Proof.
  intros H. split; intros x Hx; exists x; (split; [by apply H|apply le_refl]).
Qed.

Lemma cofinal_refl X : cofinal le X X.
Proof. by apply cofinal_same. Qed.

Lemma cofinal_sym X Y : cofinal le X Y → cofinal le Y X.
Proof. intros [H1 H2]. by split. Qed.

Lemma cofinal_trans X Y Z : cofinal le X Y → cofinal le Y Z → cofinal le X Z.
Proof.
  intros [H1 H2] [H3 H4]. split.
  - intros x Hx. destruct (H1 _ Hx) as (y & Hy & Hxy). destruct (H3 _ Hy) as (z & Hz & Hyz).
    exists z. split; [done|by eapply le_trans].
  - intros z Hz. destruct (H4 _ Hz) as (y & Hy & Hzy). destruct (H2 _ Hy) as (x & Hx & Hyx).
    exists x. split; [done|by eapply le_trans].
Qed.

Lemma cofinal_app X Y X' Y' :
  cofinal le X Y → cofinal le X' Y' → cofinal le (X ++ X') (Y ++ Y').
Proof.
  intros [H1 H2] [H3 H4]. split; intros x [Hx|Hx]%elem_of_app.
  - destruct (H1 _ Hx) as (y & Hy & Hxy). exists y. split; [apply elem_of_app; by left|done].
  - destruct (H3 _ Hx) as (y & Hy & Hxy). exists y. split; [apply elem_of_app; by right|done].
  - destruct (H2 _ Hx) as (y & Hy & Hxy). exists y. split; [apply elem_of_app; by left|done].
  - destruct (H4 _ Hx) as (y & Hy & Hxy). exists y. split; [apply elem_of_app; by right|done].
Qed.

Lemma cofinal_nonempty X Y : cofinal le X Y → X ≠ [] → Y ≠ [].
Proof.
  intros [H1 _] HX. destruct X as [|x X]; [done|].
  destruct (H1 x ltac:(left)) as (y & Hy & _). intros ->. by apply elem_of_nil in Hy.
Qed.

Lemma extreme_bound vs v : v ∈ vs → le v (extreme pick vs).
Proof. destruct vs as [|v0 vs]; [by intros ?%elem_of_nil|]. apply foldl_bound. Qed.

Lemma extreme_attained vs : vs ≠ [] → ∃ v, v ∈ vs ∧ (extreme pick vs == v)%Q.
Proof. destruct vs as [|v0 vs]; [done|]. intros _. apply foldl_attained. Qed.

(** The extreme of a list stands for the list. *)
Lemma extreme_cofinal vs : vs ≠ [] → cofinal le [extreme pick vs] vs.
Proof.
  intros Hne. split.
  - intros x ->%list_elem_of_singleton. destruct (extreme_attained vs Hne) as (v & Hv & Heq).
    exists v. split; [done|by apply le_eq].
  - intros v Hv. exists (extreme pick vs). split; [left|by apply extreme_bound].
Qed.

Lemma extreme_le X Y : cofinal le X Y → X ≠ [] → le (extreme pick X) (extreme pick Y).
Proof.
  intros [H1 _] HX. destruct (extreme_attained X HX) as (x & Hx & Heq).
  destruct (H1 _ Hx) as (y & Hy & Hxy).
  apply (le_proper x (extreme pick X) (extreme pick Y) (extreme pick Y)); [done|done|].
  eapply le_trans; [exact Hxy|]. by apply extreme_bound.
Qed.

(** Lists that bound each other have the same extreme. *)
Lemma extreme_eq X Y : cofinal le X Y → X ≠ [] → (extreme pick X == extreme pick Y)%Q.
Proof.
  intros Hcof HX. apply le_antisym; [by apply extreme_le|].
  apply extreme_le; [by apply cofinal_sym|]. by eapply cofinal_nonempty.
Qed.

Lemma cofinal_pointwise X Y : Forall2 Qeq X Y → cofinal le X Y.
Proof.
  induction 1 as [|x y X Y Hxy _ IH]; [apply cofinal_refl|].
  apply (cofinal_app [x] [y]); [|done].
  split; intros v ->%list_elem_of_singleton; eexists; (split; [left|]); by apply le_eq.
Qed.

Lemma extreme_pointwise X Y : Forall2 Qeq X Y → (extreme pick X == extreme pick Y)%Q.
Proof.
  intros H. destruct X as [|x X]; [by inversion H|].
  apply extreme_eq; [by apply cofinal_pointwise|done].
Qed.

End ExtremeOrder.

Lemma Qmax_extremal : Shapes.extremal Qmax Qle.
Proof.
  repeat apply conj.
  - intros a a' b b' Ha Hb. by rewrite Ha, Hb.
  - apply Qle_refl.
  - apply Qle_trans.
  - apply Qle_antisym.
  - intros a b. destruct (Q.max_spec a b) as [[_ H]|[_ H]]; auto.
  - intros a b m. apply Q.max_lub_iff.
Qed.

Lemma Qmin_extremal : Shapes.extremal Qmin (fun a b => (b <= a)%Q).
Proof.
  repeat apply conj.
  - intros a a' b b' Ha Hb. by rewrite Ha, Hb.
  - apply Qle_refl.
  - intros a b c H1 H2. by apply (Qle_trans _ b).
  - intros a b H1 H2. by apply Qle_antisym.
  - intros a b. destruct (Q.min_spec a b) as [[_ H]|[_ H]]; auto.
  - intros a b m. apply Q.min_glb_iff.
Qed.

(** ** Equal expressions have equal values *)

Section ValueEqb.
Import Shapes.
Context (w : string → Q).

Lemma expr_eqb_args (mk : list expr → expr) xs ys :
  (mk = Add ∨ mk = Mul ∨ mk = Max ∨ mk = Min) →
  expr_eqb (mk xs) (mk ys) = args_eqb xs ys.
Proof.
  intros [-> | [-> | [-> | ->]]]; cbn [expr_eqb];
    revert ys; induction xs as [|x xs IH]; intros ys; cbn [args_eqb]; try done;
    by destruct (remove_first (expr_eqb x) ys).
Qed.

Lemma remove_first_perm {A} (p : A → bool) l l' :
  remove_first p l = Some l' → ∃ y, p y = true ∧ l ≡ₚ y :: l'.
Proof.
  revert l'. induction l as [|x l IH]; intros l'; cbn [remove_first]; [done|].
  destruct (p x) eqn:Hp.
  - intros [= <-]. by exists x.
  - destruct (remove_first p l) as [l0|]; [|done]. intros [= <-].
    destruct (IH _ eq_refl) as (y & Hy & Hperm). exists y. split; [done|].
    rewrite Hperm. apply Permutation_swap.
Qed.

Lemma args_eqb_cofinal le xs :
  (∀ a, le a a) → (∀ a b, (a == b)%Q → le a b) →
  Forall (fun x => ∀ b, expr_eqb x b = true → (value w x == value w b)%Q) xs →
  ∀ ys, args_eqb xs ys = true →
        cofinal le (map (value w) xs) (map (value w) ys).
Proof.
  intros Hrefl Heq. induction 1 as [|x xs Hx _ IH]; intros ys; cbn [args_eqb].
  - destruct ys; [|done]. intros _. split; by intros ? ?%elem_of_nil.
  - destruct (remove_first (expr_eqb x) ys) as [ys'|] eqn:Hrm; [|done]. intros Hrest.
    destruct (remove_first_perm _ _ _ Hrm) as (y & Hy & Hperm).
    destruct (IH _ Hrest) as [H1 H2]. apply Hx in Hy.
    assert (∀ v, v ∈ map (value w) ys ↔ v = value w y ∨ v ∈ map (value w) ys') as Hys.
    { intros v. rewrite Hperm. cbn [map]. apply elem_of_cons. }
    split.
    + intros v [->|Hv]%elem_of_cons.
      * exists (value w y). split; [apply Hys; by left|by apply Heq].
      * destruct (H1 _ Hv) as (v' & Hv' & Hle). exists v'. split; [apply Hys; by right|done].
    + intros v [->|Hv]%Hys.
      * exists (value w x). split; [left|by apply Heq].
      * destruct (H2 _ Hv) as (v' & Hv' & Hle). exists v'. split; [by right|done].
Qed.

Lemma args_eqb_extreme pick le xs ys :
  extremal pick le →
  Forall (fun x => ∀ b, expr_eqb x b = true → (value w x == value w b)%Q) xs →
  args_eqb xs ys = true →
  (extreme pick (map (value w) xs) == extreme pick (map (value w) ys))%Q.
Proof.
  intros Hord Hxs Heqb. destruct xs as [|x xs].
  - by destruct ys.
  - apply (extreme_eq pick le Hord); [|done].
    apply (args_eqb_cofinal le); [apply (le_refl pick le Hord)| |done|done].
    apply (le_eq pick le Hord).
Qed.

(** [expr_eqb] identifies only expressions of equal value. *)
Lemma value_eqb a : ∀ b, expr_eqb a b = true → (value w a == value w b)%Q.
Proof.
  induction a as [s|q|l IH|l IH|b x IHb IHx|l IH|l IH] using expr_nested_ind;
    intros [s'|q'|l'|l'|b' x'|l'|l']; try done.
  - cbn [expr_eqb value]. by intros ->%String.eqb_eq.
  - cbn [expr_eqb value]. apply Qeq_bool_iff.
  - rewrite (expr_eqb_args Add) by tauto. cbn [value].
    by apply (args_eqb_extreme Qmin _ l l' Qmin_extremal).
  - rewrite (expr_eqb_args Mul) by tauto. cbn [value].
    by apply (args_eqb_extreme Qmax _ l l' Qmax_extremal).
  - cbn [expr_eqb value]. intros [Hb Hx]%andb_true_iff.
    rewrite (IHb _ Hb). by rewrite (Qfloor_comp _ _ (IHx _ Hx)).
  - rewrite (expr_eqb_args Max) by tauto. cbn [value].
    by apply (args_eqb_extreme Qmax _ l l' Qmax_extremal).
  - rewrite (expr_eqb_args Min) by tauto. cbn [value].
    by apply (args_eqb_extreme Qmin _ l l' Qmin_extremal).
Qed.

End ValueEqb.

(** ** The value of an extremum *)

Section ExtremumValue.
Import Shapes.
Context (w : string → Q) (pick : Q → Q → Q) (le : Q → Q → Prop) (Hord : extremal pick le).
Context (nested : expr → option (list expr)) (mk : list expr → expr).
Hypothesis value_mk : ∀ l, value w (mk l) = extreme pick (map (value w) l).

Lemma insert_arg_cofinal e l :
  cofinal le (map (value w) (insert_arg e l)) (map (value w) l ++ [value w e]).
Proof.
  induction l as [|x l IH]; cbn [insert_arg]; [apply (cofinal_refl pick le Hord)|].
  destruct (expr_eqb e x) eqn:Heqb.
  - apply (value_eqb w) in Heqb. split.
    + intros v Hv. exists v. split; [apply elem_of_app; by left|apply (le_refl pick le Hord)].
    + intros v [Hv | ->%list_elem_of_singleton]%elem_of_app.
      * exists v. split; [done|apply (le_refl pick le Hord)].
      * exists (value w x). split; [left|by apply (le_eq pick le Hord)].
  - cbn [map app]. apply (cofinal_app le [value w x] [value w x]); [|done].
    apply (cofinal_refl pick le Hord).
Qed.

Lemma held_extremum_arg acc e :
  cofinal le (held w (extremum_arg pick acc e)) (held w acc ++ [value w e]).
Proof.
  assert (cofinal le (map (value w) (insert_arg e acc.2) ++ from_option (fun q => [q]) [] acc.1)
                     (held w acc ++ [value w e])) as Hother.
  { eapply (cofinal_trans pick le Hord).
    - apply (cofinal_app le); [apply insert_arg_cofinal|apply (cofinal_refl pick le Hord)].
    - apply (cofinal_same pick le Hord). intros v. unfold held. set_solver. }
  destruct e as [s|q|l|l|b x|l|l]; try exact Hother.
  unfold held. cbn [extremum_arg fst snd value]. rewrite <- app_assoc.
  apply (cofinal_app le); [apply (cofinal_refl pick le Hord)|].
  destruct acc.1 as [m|]; cbn; [|apply (cofinal_refl pick le Hord)].
  split.
  - intros v ->%list_elem_of_singleton. destruct (pick_one pick le Hord m q) as [H|H].
    + exists m. split; [left|by apply (le_eq pick le Hord)].
    + exists q. split; [right; left|by apply (le_eq pick le Hord)].
  - intros v Hv. exists (pick m q). split; [left|].
    apply elem_of_cons in Hv as [-> | ->%list_elem_of_singleton].
    + apply (le_pick_l pick le Hord).
    + apply (le_pick_r pick le Hord).
Qed.

Lemma held_fold_arg l :
  ∀ acc, cofinal le (held w (foldl (extremum_arg pick) acc l))
                    (held w acc ++ map (value w) l).
Proof.
  induction l as [|e l IH]; intros acc; cbn [foldl map].
  - rewrite app_nil_r. apply (cofinal_refl pick le Hord).
  - eapply (cofinal_trans pick le Hord); [apply IH|].
    change (value w e :: map (value w) l) with ([value w e] ++ map (value w) l).
    rewrite app_assoc. apply (cofinal_app le); [apply held_extremum_arg|].
    apply (cofinal_refl pick le Hord).
Qed.

Lemma held_extremum_args acc x :
  (∀ inner, nested x = Some inner →
            inner ≠ [] ∧ value w x = extreme pick (map (value w) inner)) →
  cofinal le (held w (extremum_args pick nested acc x)) (held w acc ++ [value w x]).
Proof.
  intros Hx. unfold extremum_args. destruct (nested x) as [inner|]; [|apply held_extremum_arg].
  destruct (Hx inner eq_refl) as [Hne ->].
  eapply (cofinal_trans pick le Hord); [apply held_fold_arg|].
  apply (cofinal_app le); [apply (cofinal_refl pick le Hord)|].
  apply (cofinal_sym le), (extreme_cofinal pick le Hord). by destruct inner.
Qed.

Lemma held_fold_args args :
  (∀ x inner, x ∈ args → nested x = Some inner →
              inner ≠ [] ∧ value w x = extreme pick (map (value w) inner)) →
  ∀ acc, cofinal le (held w (foldl (extremum_args pick nested) acc args))
                    (held w acc ++ map (value w) args).
Proof.
  induction args as [|x args IH]; intros Hnested acc; cbn [foldl map].
  - rewrite app_nil_r. apply (cofinal_refl pick le Hord).
  - eapply (cofinal_trans pick le Hord); [apply IH; intros y inner Hy; apply Hnested; by right|].
    change (value w x :: map (value w) args) with ([value w x] ++ map (value w) args).
    rewrite app_assoc. apply (cofinal_app le); [|apply (cofinal_refl pick le Hord)].
    apply held_extremum_args. intros inner. apply Hnested. left.
Qed.

(** An extremum is worth the extreme of the values of its arguments. *)
Lemma value_extremum args e :
  (∀ x inner, x ∈ args → nested x = Some inner →
              inner ≠ [] ∧ value w x = extreme pick (map (value w) inner)) →
  extremum pick nested mk args = Some e →
  (value w e == extreme pick (map (value w) args))%Q.
Proof.
  intros Hnested. unfold extremum.
  pose proof (held_fold_args args Hnested (None, [])) as Hheld.
  destruct (foldl _ _ args) as [num others]. unfold held in Hheld. cbn [fst snd app] in Hheld.
  assert (map (value w) (others ++ from_option (fun q => [Number q]) [] num)
          = map (value w) others ++ from_option (fun q => [q]) [] num) as Hfinal.
  { rewrite map_app. by destruct num. }
  rewrite <- Hfinal in Hheld.
  destruct (others ++ _) as [|x [|y final]]; [done| |]; intros [= <-].
  - by apply (extreme_eq pick le Hord [value w x]).
  - rewrite value_mk. by apply (extreme_eq pick le Hord).
Qed.

End ExtremumValue.

Section RuleValue.
Import Shapes.
Context (w : string → Q).

Lemma value_mk_Max args e :
  Forall (fun e => proper e = true) args → mk_Max args = Some e →
  (value w e == extreme Qmax (map (value w) args))%Q.
Proof.
  intros Hall. apply (value_extremum w Qmax Qle Qmax_extremal); [done|].
  intros [] inner Hx; try done. intros [= <-]. split; [|done].
  rewrite Forall_forall in Hall. apply Hall, proper_Max in Hx as [Hlen _].
  by apply proper_args_nonempty.
Qed.

Lemma value_mk_Min args e :
  Forall (fun e => proper e = true) args → mk_Min args = Some e →
  (value w e == extreme Qmin (map (value w) args))%Q.
Proof.
  intros Hall. apply (value_extremum w Qmin _ Qmin_extremal); [done|].
  intros [] inner Hx; try done. intros [= <-]. split; [|done].
  rewrite Forall_forall in Hall. apply Hall, proper_Min in Hx as [Hlen _].
  by apply proper_args_nonempty.
Qed.

Lemma value_pow b n :
  integral n = true → value w (pow b (Number n)) = value w (Pow b (Number n)).
Proof.
  intros Hn. unfold pow. destruct b; try done. unfold integral in Hn. by rewrite Hn.
Qed.

(** The rewritten arguments: proper, and worth what they were. *)
Lemma mapM_replace_value l :
  Forall (fun e => proper e = true →
                   ∀ e', replace_MulMax_AddMin e = Some e' →
                         (value w e' == value w e)%Q) l →
  Forall (fun e => proper e = true) l →
  ∀ l', mapM replace_MulMax_AddMin l = Some l' →
        Forall (fun e => proper e = true) l'
        ∧ Forall2 Qeq (map (value w) l') (map (value w) l).
Proof.
  induction 1 as [|e l He _ IH]; intros Hl l'; cbn [mapM]; [by intros [= <-]|].
  inversion Hl; subst.
  destruct (replace_MulMax_AddMin e) as [e'|] eqn:Hrepl; [|done]. cbn [mbind option_bind].
  destruct (mapM _ l) as [l0|]; [|done]. intros [= <-].
  destruct (IH ltac:(done) _ eq_refl) as [Hproper Hvalues].
  destruct (replace_proper e ltac:(done)) as (e0 & He0 & Hp0).
  assert (e0 = e') as -> by congruence.
  split; [by constructor|]. cbn [map]. constructor; [by apply He|done].
Qed.

(** The rewriting to [Max] and [Min] keeps the value of a proper tree. *)
Lemma value_replace e :
  proper e = true →
  ∀ e', replace_MulMax_AddMin e = Some e' → (value w e' == value w e)%Q.
Proof.
  induction e as [s|q|l IH|l IH|b x IHb IHx|l IH|l IH] using expr_nested_ind;
    intros He e'; cbn [replace_MulMax_AddMin]; try by intros [= <-].
  - apply proper_Add in He as [_ Hall].
    destruct (mapM _ l) as [l'|] eqn:Hm; [|done]. cbn [mbind option_bind]. intros Hmk.
    destruct (mapM_replace_value l IH Hall l' Hm) as [Hproper Hvalues].
    rewrite (value_mk_Min l' e' Hproper Hmk). cbn [value].
    by apply (extreme_pointwise Qmin _ Qmin_extremal).
  - apply proper_Mul in He as [_ Hall].
    destruct (mapM _ l) as [l'|] eqn:Hm; [|done]. cbn [mbind option_bind]. intros Hmk.
    destruct (mapM_replace_value l IH Hall l' Hm) as [Hproper Hvalues].
    rewrite (value_mk_Max l' e' Hproper Hmk). cbn [value].
    by apply (extreme_pointwise Qmax _ Qmax_extremal).
  - apply proper_Pow in He as (Hb & n & -> & Hn).
    destruct (replace_MulMax_AddMin b) as [b'|] eqn:Hrepl; [|done].
    cbn [mbind option_bind]. intros [= <-]. rewrite value_pow by done.
    cbn [value]. by rewrite (IHb Hb b' eq_refl).
  - apply proper_Max in He as [_ Hall].
    destruct (mapM _ l) as [l'|] eqn:Hm; [|done]. cbn [mbind option_bind]. intros Hmk.
    destruct (mapM_replace_value l IH Hall l' Hm) as [Hproper Hvalues].
    rewrite (value_mk_Max l' e' Hproper Hmk). cbn [value].
    by apply (extreme_pointwise Qmax _ Qmax_extremal).
  - apply proper_Min in He as [_ Hall].
    destruct (mapM _ l) as [l'|] eqn:Hm; [|done]. cbn [mbind option_bind]. intros Hmk.
    destruct (mapM_replace_value l IH Hall l' Hm) as [Hproper Hvalues].
    rewrite (value_mk_Min l' e' Hproper Hmk). cbn [value].
    by apply (extreme_pointwise Qmin _ Qmin_extremal).
Qed.

End RuleValue.

(** ** The value the substitution computes *)

Section SubsValue.
Import Shapes.
Context (w : string → Q) (d : gmap string Q).

Lemma mapM_subs_value l :
  Forall (fun e => proper e = true → extrema_only e = true →
                   (∀ s, s ∈ symbols e → d !! s = Some (w s)) →
                   ∃ q, subs d e = Some (Number q) ∧ (q == value w e)%Q) l →
  Forall (fun e => proper e = true) l →
  Forall (fun e => extrema_only e = true) l →
  (∀ s, s ∈ l ≫= symbols → d !! s = Some (w s)) →
  ∃ qs, mapM (subs d) l = Some (map Number qs)
        ∧ Forall2 Qeq qs (map (value w) l).
Proof.
  induction 1 as [|e l He _ IH]; intros Hp Hx Hd; cbn [mapM]; [by exists []|].
  inversion Hp; subst. inversion Hx; subst.
  destruct He as (q & -> & Hq); [done|done|intros s Hs; apply Hd; cbn; set_solver|].
  destruct IH as (qs & -> & Hqs); [done|done|intros s Hs; apply Hd; cbn; set_solver|].
  cbn [mbind option_bind]. exists (q :: qs). split; [done|]. by constructor.
Qed.

Lemma extremum_of_numbers pick nested mk qs :
  (∀ q, nested (Number q) = None) → qs ≠ [] →
  extremum pick nested mk (map Number qs) = Some (Number (extreme pick qs)).
Proof.
  intros Hnested Hne. destruct qs as [|v vs]; [done|]. by apply extremum_numbers.
Qed.

(** On a proper tree of [Max] and [Min] whose symbols all have an
    entry, the substitution returns a number: the value of the tree. *)
Lemma subs_value e :
  proper e = true → extrema_only e = true →
  (∀ s, s ∈ symbols e → d !! s = Some (w s)) →
  ∃ q, subs d e = Some (Number q) ∧ (q == value w e)%Q.
Proof.
  induction e as [s|q|l IH|l IH|b x IHb IHx|l IH|l IH] using expr_nested_ind;
    intros Hp Hx Hd; try done.
  - exists (w s). cbn [subs value]. rewrite Hd by (cbn; set_solver). done.
  - by exists q.
  - apply proper_Pow in Hp as (Hb & n & -> & Hn).
    cbn [extrema_only] in Hx. apply andb_true_iff in Hx as [Hxb _].
    destruct (IHb Hb Hxb) as (qb & Hsubs & Hqb); [intros s Hs; apply Hd; cbn; set_solver|].
    cbn [subs]. rewrite Hsubs. cbn [mbind option_bind pow].
    unfold integral in Hn. rewrite Hn. eexists. split; [done|].
    cbn [value]. by rewrite Hqb.
  - apply proper_Max in Hp as [Hlen Hall]. apply extrema_only_list in Hx.
    destruct (mapM_subs_value l IH Hall Hx Hd) as (qs & Hm & Hqs).
    cbn [subs]. rewrite Hm. cbn [mbind option_bind].
    assert (qs ≠ []) as Hne.
    { apply Forall2_length in Hqs. rewrite length_map in Hqs. destruct qs; cbn in *; [lia|done]. }
    exists (extreme Qmax qs). split; [by apply (extremum_of_numbers Qmax args_of_Max Max)|].
    cbn [value]. by apply (extreme_pointwise Qmax _ Qmax_extremal).
  - apply proper_Min in Hp as [Hlen Hall]. apply extrema_only_list in Hx.
    destruct (mapM_subs_value l IH Hall Hx Hd) as (qs & Hm & Hqs).
    cbn [subs]. rewrite Hm. cbn [mbind option_bind].
    assert (qs ≠ []) as Hne.
    { apply Forall2_length in Hqs. rewrite length_map in Hqs. destruct qs; cbn in *; [lia|done]. }
    exists (extreme Qmin qs). split; [by apply (extremum_of_numbers Qmin args_of_Min Min)|].
    cbn [value]. by apply (extreme_pointwise Qmin _ Qmin_extremal).
Qed.

(** Rewriting and substitution together, on the tree of a rule. *)
Lemma rewritten_value text tree :
  Parser.sympify text = Some tree →
  (∀ s, s ∈ symbols tree → d !! s = Some (w s)) →
  ∃ tree' q, replace_MulMax_AddMin tree = Some tree'
             ∧ subs d tree' = Some (Number q)
             ∧ (q == value w tree)%Q.
Proof.
  intros Hparse Hd. pose proof (sympify_proper _ _ Hparse) as Hproper.
  destruct (replace_proper tree Hproper) as (tree' & Hrepl & Hproper').
  destruct (subs_value tree' Hproper' (replace_extrema _ _ Hrepl)) as (q & Hsubs & Hq).
  { intros s Hs. by apply Hd, (symbols_replace _ _ Hrepl). }
  exists tree', q. repeat split; [done|done|].
  rewrite Hq. by apply value_replace.
Qed.

End SubsValue.


(** X10.  Rewriting and substitution compute the reading of the rule.
    For the tree [sympify] gives a rule and a table with an entry for
    each of its symbols, [replace_MulMax_AddMin] followed by [subs]
    returns a number: the value of the tree where a sum takes the
    least of its terms and a product the greatest of its factors.
    Repeated terms are read as the parser collected them, [A + A] as
    the product of [2] and [A]. *)
Theorem rule_value text tree (d : gmap string Q) :
  Parser.sympify text = Some tree →
  (∀ s, s ∈ symbols tree → is_Some (d !! s)) →
  ∃ tree' q, replace_MulMax_AddMin tree = Some tree'
             ∧ subs d tree' = Some (Number q)
             ∧ (q == Shapes.value (fun s => default 0%Q (d !! s)) tree)%Q.
Proof.
  intros Hparse Hd. apply (rewritten_value _ d text tree Hparse).
  intros s Hs. destruct (Hd s Hs) as [v Hv]. by rewrite Hv.
Qed.

Lemma rule_value_witness :
  ∃ tree' q,
    replace_MulMax_AddMin (Add [Symbol "A"; Mul [Symbol "B"; Symbol "C"]]) = Some tree'
    ∧ subs example_weights tree' = Some (Number q)
    ∧ (q == Shapes.value (fun s => default 0%Q (example_weights !! s))
                         (Add [Symbol "A"; Mul [Symbol "B"; Symbol "C"]]))%Q.
Proof.
  apply (rule_value "A + (B * C)").
  - reflexivity.
  - intros s Hs. cbn in Hs.
    repeat (apply elem_of_cons in Hs as [->|Hs]; [by eexists|]).
    by apply elem_of_nil in Hs.
Defined.



(** ** The model names of the script and of the tokenizer *)

Section ModelNames.
Import Main.

Lemma prepare_supported rxn modelname :
  existsb (String.eqb modelname) model_list = true →
  ∃ expr_split gen_list,
    prepare_expr_split_gen_list rxn modelname
    = ([], inr (Some expr_split, Some gen_list)).
Proof.
  unfold prepare_expr_split_gen_list, model_list. cbn [existsb].
  destruct (String.eqb modelname "recon2"); [by eauto|].
  destruct (String.eqb modelname "recon1"); [by eauto|].
  destruct (String.eqb modelname "iMM1865"); [by eauto|].
  destruct (String.eqb modelname "human1"); [by eauto|].
  destruct (String.eqb modelname "zebrafish1"); [by eauto|]. done.
Qed.

Lemma reaction_weight_supported gene_weights modelname rxn :
  existsb (String.eqb modelname) model_list = true →
  (reaction_weight gene_weights modelname rxn).1 = []
  ∧ type_error (reaction_weight gene_weights modelname rxn).2 = false.
Proof.
  intros Hm. unfold reaction_weight. destruct (0 <? length (genes rxn))%nat; [|done].
  destruct (prepare_supported rxn modelname Hm) as (es & gl & ->). io_step.
  destruct (Parser.sympify _) as [tree|]; [|done]. io_step.
  destruct (replace_MulMax_AddMin tree) as [tree'|]; [|done]. io_step.
  destruct (subs_dict _) as [d|]; [|done]. io_step.
  by destruct (subs d tree').
Qed.

Lemma apply_gpr_loop_supported gene_weights modelname reactions :
  existsb (String.eqb modelname) model_list = true →
  ∀ acc, (apply_gpr_loop gene_weights modelname reactions acc).1 = []
         ∧ type_error (apply_gpr_loop gene_weights modelname reactions acc).2 = false.
Proof.
  intros Hm. induction reactions as [|r rest IH]; intros acc; [done|].
  cbn [apply_gpr_loop]. rewrite io_bind_log, io_bind_result.
  destruct (reaction_weight_supported gene_weights modelname r Hm) as [-> Herr].
  destruct (reaction_weight gene_weights modelname r).2 as [e|w]; [done|]. apply IH.
Qed.

End ModelNames.

(** X12.  The model names the script accepts are the names the
    tokenizer knows.  The script prints one line, the list of the
    supported models, when the name is not in its list, and nothing
    otherwise: [Modelname not found] is never printed, and the run
    never ends with the [TypeError] that the tokenizer's empty answer
    leads to. *)
Theorem main_model_names model (gene_weights : series) modelname output :
  printed (Main.main model gene_weights modelname output).1
  = (if existsb (String.eqb modelname) Main.model_list then []
     else ["Unsupported model. The currently supported models are: human1, recon1, recon2, iMM1865, zebrafish1"])
  ∧ type_error (Main.main model gene_weights modelname output).2 = false.
Proof.
  unfold Main.main. destruct (existsb _ Main.model_list) eqn:Hm; [|done].
  rewrite io_bind_log, io_bind_result. unfold apply_gpr.
  rewrite !io_bind_log, !io_bind_result.
  destruct (apply_gpr_loop_supported (Main.gene_weight_table gene_weights) modelname
              model Hm ∅) as [-> Herr].
  destruct (apply_gpr_loop _ modelname model ∅).2 as [e|rw]; [done|]. done.
Qed.
